(** * KvStoreWrapper: a shallow embedding of openr/kvstore/KvStoreWrapper.cpp

    The wrapper embeds one KvStore instance together with the queues the
    store writes to, and offers blocking calls on top of the store's
    future-returning API.  The functions of the wrapper are translated
    from the C++ source; the store behind it ([KvStore], [KvStoreDb]) is
    declared in other files of the repository and is modelled from the
    design document where a statement needs it. *)

From Stdlib Require Import ZArith String List.
From stdpp Require Import gmap strings list fin_maps.

Local Open Scope string_scope.
Local Open Scope Z_scope.
Local Open Scope list_scope.

(** ** Thrift data types used by the wrapper *)

Definition AreaId := string.

(** [thrift::Value]: the unit of replication. *)
Record Value := mkValue {
  version : Z;
  originatorId : string;
  value : option string;
  ttl : Z;
  ttlVersion : Z;
  hash : option positive
}.

#[global] Instance Value_eq_dec : EqDecision Value.
Proof. solve_decision. Defined.

Abbreviation KeyVals := (gmap string Value).

(** [thrift::Publication]. *)
Record Publication := mkPublication {
  pub_area : AreaId;
  pub_keyVals : KeyVals;
  pub_expiredKeys : list string;
  pub_nodeIds : option (list string)
}.

(** A default-constructed [thrift::Publication]. *)
Definition Publication_default : Publication :=
  {| pub_area := ""; pub_keyVals := ∅; pub_expiredKeys := [];
     pub_nodeIds := None |}.

(** Modelled from the spec: the thrift enum [InitializationEvent] is
    declared outside this file.  The design document names its marker
    [KVSTORE_SYNCED]; the wrapper compares a dequeued event against that
    marker, so the enum has further enumerators, kept here by their
    numeric tag. *)
Inductive InitializationEvent :=
| KVSTORE_SYNCED
| OTHER_INITIALIZATION_EVENT (tag : nat).

#[global] Instance InitializationEvent_eq_dec : EqDecision InitializationEvent.
Proof. solve_decision. Defined.

(** The element type of the updates queue:
    [std::variant<thrift::Publication, thrift::InitializationEvent>]. *)
Inductive KvStorePublication :=
| PublicationItem (pub : Publication)
| InitializationEventItem (event : InitializationEvent).

(** ** The reader half of the updates queue *)

Module Queue.

(** Modelled from the spec: the queue class ([messaging::RQueue]) is
    declared outside this file.  Delivery is FIFO and lossless while the
    queue is open; once it is closed a reader gets a terminal error.  A
    reader sees the items still to be delivered, followed either by the
    close of the queue or by nothing at all (the queue stays open and
    empty, and a read waits for ever). *)
Inductive Ending := Closed | StaysOpen.

Record RQueue := mkRQueue {
  pending : list KvStorePublication;
  ending : Ending
}.

(** The result of one [get()] on the reader. *)
Inductive GetResult :=
| HasValue (item : KvStorePublication) (rest : RQueue)
| HasError
| Waits.

Definition get (q : RQueue) : GetResult :=
  match pending q with
  | item :: rest => HasValue item {| pending := rest; ending := ending q |}
  | [] => match ending q with Closed => HasError | StaysOpen => Waits end
  end.

End Queue.

Import Queue.

(** ** Outcomes of a blocking wrapper call *)

Inductive Outcome (A : Type) :=
| Returned (a : A) (rest : RQueue)   (* normal return; the reader's state after it *)
| Thrown (what : string)             (* a std::runtime_error reaches the caller *)
| Aborted                            (* a failed CHECK ends the process *)
| Blocked.                           (* the call never returns *)

Arguments Returned {A} a rest.
Arguments Thrown {A} what.
Arguments Aborted {A}.
Arguments Blocked {A}.

(** ** KvStoreWrapper::recvPublication and recvKvStoreSyncedSignal *)

(** The loop [while (true) { get(); ... }], by recursion on the items the
    reader still has to see.  The [throw] after the loop
    ("timeout receiving publication") has no path leading to it. *)
Fixpoint recvPublication_loop (items : list KvStorePublication) (e : Ending)
  : Outcome Publication :=
  match items with
  | [] =>
      match e with
      | Closed => Thrown "recvPublication failed"
      | StaysOpen => Blocked
      end
  | PublicationItem pub :: rest => Returned pub {| pending := rest; ending := e |}
  | InitializationEventItem _ :: rest => recvPublication_loop rest e
  end.

Definition recvPublication (q : RQueue) : Outcome Publication :=
  recvPublication_loop (pending q) (ending q).

Fixpoint recvKvStoreSyncedSignal_loop (items : list KvStorePublication) (e : Ending)
  : Outcome unit :=
  match items with
  | [] =>
      match e with
      | Closed => Thrown "recvPublication failed"
      | StaysOpen => Blocked
      end
  | InitializationEventItem event :: rest =>
      if decide (event = KVSTORE_SYNCED)
      then Returned tt {| pending := rest; ending := e |}
      else Aborted
  | PublicationItem _ :: rest => recvKvStoreSyncedSignal_loop rest e
  end.

Definition recvKvStoreSyncedSignal (q : RQueue) : Outcome unit :=
  recvKvStoreSyncedSignal_loop (pending q) (ending q).

(** The call that follows on the same reader once a call has returned. *)
Definition next_call {A B : Type} (o : Outcome A) (f : RQueue → Outcome B)
    : option (Outcome B) :=
  match o with
  | Returned _ rest => Some (f rest)
  | _ => None
  end.

(** The invariant of the writer side: every initialization event on the
    queue is KVSTORE_SYNCED. *)
Definition only_synced (items : list KvStorePublication) : Prop :=
  Forall (fun item => ∀ event, item = InitializationEventItem event →
                               event = KVSTORE_SYNCED) items.

(** ** The store behind the wrapper *)

(** [thrift::KvStorePeerState]. *)
Inductive KvStorePeerState := IDLE | SYNCING | INITIALIZED.

(** [KvStorePeerEvent]. *)
Inductive KvStorePeerEvent := PEER_ADD | SYNC_RESP_RCVD | THRIFT_API_ERROR.

#[global] Instance KvStorePeerState_eq_dec : EqDecision KvStorePeerState.
Proof. solve_decision. Defined.

#[global] Instance KvStorePeerEvent_eq_dec : EqDecision KvStorePeerEvent.
Proof. solve_decision. Defined.

(** [thrift::PeerSpec]: where to reach the peer, and its advertised state. *)
Record PeerSpec := mkPeerSpec {
  peerAddr : string;
  ctrlPort : Z;
  peer_state : KvStorePeerState
}.

#[global] Instance PeerSpec_eq_dec : EqDecision PeerSpec.
Proof. solve_decision. Defined.

Abbreviation PeersMap := (gmap string PeerSpec).

(** [thrift::KeySetParams], with the two fields the wrapper fills in. *)
Record KeySetParams := mkKeySetParams {
  set_keyVals : KeyVals;
  set_nodeIds : option (list string)
}.

(** [thrift::KeyGetParams]. *)
Record KeyGetParams := mkKeyGetParams {
  get_keys : list string
}.

(** [KvStoreFilters]: key prefixes and originator ids to match. *)
Record KvStoreFilters := mkKvStoreFilters {
  getKeyPrefixes : list string;
  getOriginatorIdList : list string
}.

(** [thrift::KeyDumpParams]. *)
Record KeyDumpParams := mkKeyDumpParams {
  dump_prefix : string;
  dump_originatorIds : list string;
  dump_keys : option (list string);
  dump_keyValHashes : option KeyVals;
  dump_senderId : option string
}.

Definition KeyDumpParams_default : KeyDumpParams :=
  {| dump_prefix := ""; dump_originatorIds := []; dump_keys := None;
     dump_keyValHashes := None; dump_senderId := None |}.

(** What [.get()] on a future gives: the value, or the exception it
    rethrows.  [what] stands for the text [folly::exceptionStr] renders. *)
Inductive Try (A : Type) :=
| TryValue (a : A)
| TryException (what : string).

Arguments TryValue {A} a.
Arguments TryException {A} what.

(** What [.getTry(timeout)] gives: the fulfilled [Try] when the future
    completes in time, a thrown [folly::FutureTimeout] when it does not;
    the call can also throw another [std::exception]. *)
Inductive GetTry (A : Type) :=
| Fulfilled (t : Try A)
| ThrowsFutureTimeout
| ThrowsException (what : string).

Arguments Fulfilled {A} t.
Arguments ThrowsFutureTimeout {A}.
Arguments ThrowsException {A} what.

(** The calls the wrapper makes on [kvStore_].  [S] is the state the store
    object reaches through the call; the wrapper is written once for any
    store, as the source is a template over the client type. *)
Class KvStoreApi (S : Type) := {
  isRunning : S → bool;
  kvStore_stop : S → S;
  semifuture_setKvStoreKeyVals : S → AreaId → KeySetParams → S * Try unit;
  semifuture_getKvStoreKeyVals : S → AreaId → KeyGetParams → GetTry Publication;
  semifuture_dumpKvStoreKeys : S → KeyDumpParams → list AreaId → Try (list Publication);
  semifuture_addUpdateKvStorePeers : S → AreaId → PeersMap → S * Try unit;
  semifuture_deleteKvStorePeers : S → AreaId → list string → S * Try unit;
  semifuture_getKvStorePeerState : S → AreaId → string → option KvStorePeerState
}.

(** ** The wrapper *)

Inductive LogLevel := DBG1 | WARNING | ERR.

Record LogLine := mkLogLine { log_level : LogLevel; log_text : string }.

(** [std::map::emplace]: the entry is inserted only when the key is new. *)
Definition emplace (k : string) (v : Value) (m : KeyVals) : KeyVals :=
  match m !! k with
  | Some _ => m
  | None => <[k := v]> m
  end.

(** The result of a wrapper call: the value returned to the caller, the
    store afterwards, and the lines written to the log. *)
Record Result (S A : Type) := mkResult {
  returned : A;
  store_after : S;
  logged : list LogLine
}.

Arguments mkResult {S A} returned store_after logged.
Arguments returned {S A} r.
Arguments store_after {S A} r.
Arguments logged {S A} r.

Section Wrapper.
Context {S : Type} {kvStoreApi : KvStoreApi S}.

(** KvStoreWrapper::setKey *)
Definition setKey (kvStore_ : S) (area : AreaId) (key : string) (v : Value)
    (nodeIds : option (list string)) : Result S bool :=
  let params := {| set_keyVals := emplace key v ∅; set_nodeIds := nodeIds |} in
  match semifuture_setKvStoreKeyVals kvStore_ area params with
  | (s', TryException what) =>
      mkResult false s' [mkLogLine ERR ("Exception to set key in kvstore: " +:+ what)]
  | (s', TryValue _) => mkResult true s' []
  end.

(** KvStoreWrapper::setKeys *)
Definition setKeys (kvStore_ : S) (area : AreaId) (keyVals : list (string * Value))
    (nodeIds : option (list string)) : Result S bool :=
  let params :=
    {| set_keyVals := fold_left (fun m kv => emplace (fst kv) (snd kv) m) keyVals ∅;
       set_nodeIds := nodeIds |} in
  match semifuture_setKvStoreKeyVals kvStore_ area params with
  | (s', TryException what) =>
      mkResult false s' [mkLogLine ERR ("Exception to set key in kvstore: " +:+ what)]
  | (s', TryValue _) => mkResult true s' []
  end.

(** KvStoreWrapper::getKey.  The [try] block either leaves through one
    of its two [return std::nullopt], or falls through to the lookup
    with [pub] assigned (a value arrived) or still default-constructed
    (the timeout was caught and logged). *)
Definition getKey (kvStore_ : S) (area : AreaId) (key : string)
    : Result S (option Value) :=
  let params := {| get_keys := [key] |} in
  let lookup (pub : Publication) (lines : list LogLine) :=
    mkResult (pub_keyVals pub !! key) kvStore_ lines in
  match semifuture_getKvStoreKeyVals kvStore_ area params with
  | Fulfilled (TryValue pub) => lookup pub []
  | Fulfilled (TryException _) =>
      mkResult None kvStore_
        [mkLogLine ERR ("Failed to retrieve key from KvStore. Key: " +:+ key)]
  | ThrowsFutureTimeout =>
      lookup Publication_default [mkLogLine ERR ("Timed out retrieving key: " +:+ key)]
  | ThrowsException what =>
      mkResult None kvStore_
        [mkLogLine WARNING ("Exception to get key from kvstore: " +:+ what)]
  end.

(** KvStoreWrapper::addPeers *)
Definition addPeers (kvStore_ : S) (area : AreaId) (peers : PeersMap)
    : Result S bool :=
  match semifuture_addUpdateKvStorePeers kvStore_ area peers with
  | (s', TryException what) =>
      mkResult false s' [mkLogLine ERR ("Failed to add peers: " +:+ what)]
  | (s', TryValue _) => mkResult true s' []
  end.

(** KvStoreWrapper::addPeer *)
Definition addPeer (kvStore_ : S) (area : AreaId) (peerName : string)
    (spec : PeerSpec) : Result S bool :=
  let peers : PeersMap := {[ peerName := spec ]} in
  addPeers kvStore_ area peers.

(** KvStoreWrapper::delPeer *)
Definition delPeer (kvStore_ : S) (area : AreaId) (peerName : string)
    : Result S bool :=
  match semifuture_deleteKvStorePeers kvStore_ area [peerName] with
  | (s', TryException what) =>
      mkResult false s' [mkLogLine ERR ("Failed to delete peers: " +:+ what)]
  | (s', TryValue _) => mkResult true s' []
  end.

(** KvStoreWrapper::getPeerState *)
Definition getPeerState (kvStore_ : S) (area : AreaId) (peerName : string)
    : option KvStorePeerState :=
  semifuture_getKvStorePeerState kvStore_ area peerName.

(** [folly::join(",", ...)] *)
Definition join_comma (l : list string) : string := String.concat "," l.

(** KvStoreWrapper::dumpAll.  The result is the key-values of the first
    publication of the reply; an exception of the call is not caught,
    and a reply without publications has no first element. *)
Definition dumpAll (nodeId_ : string) (kvStore_ : S) (area : AreaId)
    (filters : option KvStoreFilters) : option (Try KeyVals) :=
  let params :=
    match filters with
    | Some f =>
        let keyPrefix := join_comma (getKeyPrefixes f) in
        {| dump_prefix := keyPrefix;
           dump_originatorIds := getOriginatorIdList f;
           dump_keys := if decide (keyPrefix = "") then None
                        else Some (getKeyPrefixes f);
           dump_keyValHashes := None;
           dump_senderId := Some nodeId_ |}
    | None => KeyDumpParams_default
    end in
  match semifuture_dumpKvStoreKeys kvStore_ params [area] with
  | TryException what => Some (TryException what)
  | TryValue [] => None
  | TryValue (pub :: _) => Some (TryValue (pub_keyVals pub))
  end.

(** *** Lifecycle *)

(** The members of the wrapper that [stop] touches. *)
Record KvStoreWrapper := mkKvStoreWrapper {
  wrapped_kvStore : S;
  kvStoreUpdatesQueue_closed : bool;
  dummyPeerUpdatesQueue_closed : bool;
  dummyKvRequestQueue_closed : bool;
  logSampleQueue_closed : bool;
  kvStoreServiceHandler_set : bool;
  thriftServer_running : bool;
  kvStoreThread_joined : bool
}.

(** What [stop] does, in program order. *)
Inductive Action :=
| Log (line : LogLine)
| CloseKvStoreUpdatesQueue
| CloseDummyPeerUpdatesQueue
| CloseDummyKvRequestQueue
| CloseLogSampleQueue
| StopThriftServer
| StopKvStore
| JoinKvStoreThread.

(** The debug line at the entry of [stop]. *)
Definition stopped_log : Action := Log (mkLogLine DBG1 "Stopping KvStoreWrapper").

(** KvStoreWrapper::stop *)
Definition stop (w : KvStoreWrapper) : KvStoreWrapper * list Action :=
  let entry := stopped_log in
  if negb (isRunning (wrapped_kvStore w)) then (w, [entry])
  else
    let handler := kvStoreServiceHandler_set w in
    ({| wrapped_kvStore := kvStore_stop (wrapped_kvStore w);
        kvStoreUpdatesQueue_closed := true;
        dummyPeerUpdatesQueue_closed := true;
        dummyKvRequestQueue_closed := true;
        logSampleQueue_closed := true;
        kvStoreServiceHandler_set := handler;
        thriftServer_running :=
          if handler then false else thriftServer_running w;
        kvStoreThread_joined := true |},
     ([entry; CloseKvStoreUpdatesQueue; CloseDummyPeerUpdatesQueue;
       CloseDummyKvRequestQueue; CloseLogSampleQueue]
      ++ (if handler then [StopThriftServer] else [])
      ++ [StopKvStore; JoinKvStoreThread;
          Log (mkLogLine DBG1 "KvStoreWrapper stopped.")])%list).

End Wrapper.

Arguments KvStoreWrapper S : clear implicits.

(** ** The key-value database of one area *)

Module AreaDb.

(** Modelled from the spec: the database class ([KvStoreDb]) and its merge
    helpers are declared outside this file.  This module is the contract
    of section 4.1 of the design document: a map from key to record, and
    the dominance rule that decides every write.  Rule 3 of the rule
    compares the value bytes, with an absent value the smallest. *)
Definition compare_value_bytes (a b : option string) : comparison :=
  match a, b with
  | None, None => Eq
  | None, Some _ => Lt
  | Some _, None => Gt
  | Some x, Some y => String.compare x y
  end.

(** Modelled from the spec: the dominance order of section 4.1 on two
    records of one key, by version, then originator, then value. *)
Definition compareValues (r1 r2 : Value) : comparison :=
  match version r1 ?= version r2 with
  | Eq =>
      match String.compare (originatorId r1) (originatorId r2) with
      | Eq => compare_value_bytes (value r1) (value r2)
      | c => c
      end
  | c => c
  end.

Definition dominates (incoming stored : Value) : bool :=
  match compareValues incoming stored with Gt => true | _ => false end.

(** A write is accepted when nothing is stored or the incoming record
    dominates the stored one. *)
Definition accepts (stored : option Value) (incoming : Value) : bool :=
  match stored with
  | None => true
  | Some s => dominates incoming s
  end.

Definition get (key : string) (db : KeyVals) : option Value := db !! key.

Definition set (key : string) (incoming : Value) (db : KeyVals) : KeyVals * bool :=
  if accepts (db !! key) incoming then (<[key := incoming]> db, true)
  else (db, false).

(** Modelled from the spec: [merge] of section 4.1.  Every entry goes
    through the dominance rule; the result is the new map and the entries
    that were accepted. *)
Definition merged_entry (stored incoming : option Value) : option Value :=
  match incoming with
  | Some i => if accepts stored i then Some i else stored
  | None => stored
  end.

Definition accepted_entry (stored incoming : option Value) : option Value :=
  match incoming with
  | Some i => if accepts stored i then Some i else None
  | None => None
  end.

Definition mergeKeyValues (db delta : KeyVals) : KeyVals * KeyVals :=
  (merge merged_entry db delta, merge accepted_entry db delta).

(** Modelled from the spec: the fingerprint over (version, originator,
    value) of section 3, computed outside this file.  It is deterministic
    and two records with one fingerprint are equal in these three fields;
    the encoding of the triple as a positive number has both properties. *)
Definition generateHash (v : Value) : positive :=
  encode (version v, originatorId v, value v).

Definition hash_only (v : Value) : Value :=
  {| version := version v; originatorId := originatorId v; value := None;
     ttl := ttl v; ttlVersion := ttlVersion v;
     hash := Some (generateHash v) |}.

Definition dump_hashes (db : KeyVals) : KeyVals := hash_only <$> db.

(** [dump(filter)]: all records when the filter names nothing, else the
    records whose key starts with one of the prefixes or whose originator
    is listed. *)
Definition key_match (prefixes originators : list string) (key : string)
    (v : Value) : bool :=
  match prefixes, originators with
  | [], [] => true
  | _, _ =>
      existsb (fun p => String.prefix p key) prefixes
      || existsb (String.eqb (originatorId v)) originators
  end.

Definition dump (prefixes originators : list string) (db : KeyVals) : KeyVals :=
  filter (fun kv => key_match prefixes originators kv.1 kv.2 = true) db.

Definition dump_self_originated (self : string) (db : KeyVals) : KeyVals :=
  filter (fun kv => originatorId kv.2 = self) db.

End AreaDb.

(** ** The peer state machine *)

(** Modelled from the spec: [KvStoreDb::getNextState] is declared outside
    this file (only its unit test is here).  The function is the table of
    section 4.2; a pair that the table does not list has no next state. *)
Definition getNextState (s : KvStorePeerState) (e : KvStorePeerEvent)
    : option KvStorePeerState :=
  match s, e with
  | IDLE, PEER_ADD => Some SYNCING
  | SYNCING, SYNC_RESP_RCVD => Some INITIALIZED
  | INITIALIZED, SYNC_RESP_RCVD => Some INITIALIZED
  | SYNCING, THRIFT_API_ERROR => Some IDLE
  | INITIALIZED, THRIFT_API_ERROR => Some IDLE
  | _, _ => None
  end.

(** The rows of the table of section 4.2: event, from, to. *)
Definition transition_table
    : list (KvStorePeerEvent * KvStorePeerState * KvStorePeerState) :=
  [ (PEER_ADD, IDLE, SYNCING);
    (SYNC_RESP_RCVD, SYNCING, INITIALIZED);
    (SYNC_RESP_RCVD, INITIALIZED, INITIALIZED);
    (THRIFT_API_ERROR, SYNCING, IDLE);
    (THRIFT_API_ERROR, INITIALIZED, IDLE) ].

(** TEST(KvStore, StateTransitionTest): the outcome of each EXPECT_EQ, in
    program order.  The last block feeds the state it got from the first
    call into the second. *)
Definition StateTransitionTest : list bool :=
  let block1 := getNextState IDLE PEER_ADD in
  let block2 := getNextState SYNCING SYNC_RESP_RCVD in
  let block3 := getNextState SYNCING THRIFT_API_ERROR in
  let newState1 := getNextState INITIALIZED SYNC_RESP_RCVD in
  let newState2 := newState1 ≫= fun s => getNextState s THRIFT_API_ERROR in
  [ bool_decide (block1 = Some SYNCING);
    bool_decide (block2 = Some INITIALIZED);
    bool_decide (block3 = Some IDLE);
    bool_decide (newState1 = Some INITIALIZED);
    bool_decide (newState2 = Some IDLE) ].

(** ** The store, its peers and the three-way sync *)

Module KvStore.

(** Modelled from the spec: the store ([KvStore], [KvStoreDb]), its sync
    engine and its counters are declared outside this file.  This module
    follows sections 3, 4.2 to 4.6 and 6 of the design document.  Stores
    live in one process (a world); a call on a store that needs a peer
    runs the exchange with that peer to its end.  Floods to eligible peers
    (section 4.4) are handed to an outbox and not delivered by this model:
    a world is quiescent only while every outbox is empty.  The database
    of one area holds the records and the peer table. *)
Record KvStoreDb := mkKvStoreDb {
  db_keyVals : KeyVals;
  db_peers : PeersMap
}.

Record Store := mkStore {
  node_name : string;
  thrift_addr : string;
  thrift_port : Z;
  running : bool;
  areas : gmap string KvStoreDb;
  (* items pushed to the updates queue, oldest first *)
  updates : list KvStorePublication;
  (* floods handed to the dissemination layer: target peer, publication *)
  outbox : list (string * Publication)
}.

Record World := mkWorld {
  stores : gmap string Store;
  counters : gmap string Z
}.

Definition empty_world : World := {| stores := ∅; counters := ∅ |}.

(** *** Counters *)

Definition sync_counters : list string :=
  [ "kvstore.thrift.num_full_sync.count";
    "kvstore.thrift.num_full_sync_success.count";
    "kvstore.thrift.num_full_sync_failure.count";
    "kvstore.thrift.num_finalized_sync.count";
    "kvstore.thrift.num_finalized_sync_success.count";
    "kvstore.thrift.num_finalized_sync_failure.count" ].

Definition counter_at (name : string) (w : World) : Z :=
  default 0 (counters w !! name).

Definition bump (name : string) (w : World) : World :=
  {| stores := stores w; counters := <[name := counter_at name w + 1]> (counters w) |}.

(** A counter is exported at zero unless it already counts. *)
Definition export (cs : gmap string Z) (name : string) : gmap string Z :=
  match cs !! name with
  | Some _ => cs
  | None => <[name := 0]> cs
  end.

(** *** One store *)

(** Modelled from the spec: a store is created with its areas, no peers
    and no records.  With no peer to wait for, the initial-sync signal is
    pushed at once (section 4.3).  The six counters of the sync are
    exported with the store, so that a reader finds them before the first
    session. *)
Definition create (nodeId : string) (areaIds : list string) (addr : string)
    (port : Z) (w : World) : World :=
  let s :=
    {| node_name := nodeId; thrift_addr := addr; thrift_port := port;
       running := true;
       areas := list_to_map (map (fun a => (a, mkKvStoreDb ∅ ∅)) areaIds);
       updates := [InitializationEventItem KVSTORE_SYNCED];
       outbox := [] |} in
  {| stores := <[nodeId := s]> (stores w);
     counters := fold_left export sync_counters (counters w) |}.

(** The peer spec under which a store can be reached. *)
Definition getPeerSpec (s : Store) : PeerSpec :=
  {| peerAddr := thrift_addr s; ctrlPort := thrift_port s; peer_state := IDLE |}.

(** Section 4.4: the peers a publication is flooded to. *)
Definition flood_targets (peers : PeersMap) (path : list string)
    (sender : option string) : list string :=
  map fst
    (filter (fun p => bool_decide (peer_state p.2 = INITIALIZED)
                      && bool_decide (p.1 ∉ path)
                      && bool_decide (Some p.1 ≠ sender) = true)
            (map_to_list peers)).

(** [incoming.node_ids_path ∪ {self}] *)
Definition extend_path (path : option (list string)) (self : string) : list string :=
  let p := default [] path in
  if bool_decide (self ∈ p) then p else (p ++ [self])%list.

(** A delta is merged into the area under the dominance rule.  When some
    entry is accepted, one publication goes to the updates queue and then
    to the outbox, once per flood target.  The result names the accepted
    entries; there is none for an area the store does not configure.
    The outbox lists the floods the store owes; their delivery to the
    peers is not modelled, so the model says what the stores hold only
    for runs in which no flood is owed ([quiescent]). *)
Definition commit (area : AreaId) (delta : KeyVals) (path : option (list string))
    (sender : option string) (s : Store) : option (Store * KeyVals) :=
  match areas s !! area with
  | None => None
  | Some db =>
      let '(kvs', accepted) := AreaDb.mergeKeyValues (db_keyVals db) delta in
      if decide (accepted = ∅) then Some (s, ∅)
      else
        let path' := extend_path path (node_name s) in
        let pub :=
          {| pub_area := area; pub_keyVals := accepted; pub_expiredKeys := [];
             pub_nodeIds := Some path' |} in
        Some
          ({| node_name := node_name s; thrift_addr := thrift_addr s;
              thrift_port := thrift_port s; running := running s;
              areas := <[area := mkKvStoreDb kvs' (db_peers db)]> (areas s);
              updates := (updates s ++ [PublicationItem pub])%list;
              outbox :=
                (outbox s
                 ++ map (fun t => (t, pub))
                        (flood_targets (db_peers db) path' sender))%list |},
           accepted)
  end.

(** The peer table of an area is rewritten by [f]. *)
Definition update_peers (area : AreaId) (f : PeersMap → PeersMap) (s : Store) : Store :=
  {| node_name := node_name s; thrift_addr := thrift_addr s;
     thrift_port := thrift_port s; running := running s;
     areas := alter (fun db => mkKvStoreDb (db_keyVals db) (f (db_peers db)))
                    area (areas s);
     updates := updates s; outbox := outbox s |}.

(** An event moves a state along the table; a pair the table does not
    list leaves the state as it is. *)
Definition transition (e : KvStorePeerEvent) (spec : PeerSpec) : PeerSpec :=
  {| peerAddr := peerAddr spec; ctrlPort := ctrlPort spec;
     peer_state := default (peer_state spec) (getNextState (peer_state spec) e) |}.

Definition set_store (s : Store) (w : World) : World :=
  {| stores := <[node_name s := s]> (stores w); counters := counters w |}.

(** *** The three-way sync, section 4.3 *)

Inductive Verdict := PeerDominates | LocalDominates | Tied | Undecided.

(** The requester's record against the responder's hash-only record.
    Version and originator decide as in the dominance rule; on a tie of
    both, equal fingerprints mean equal records.  The document does not
    say what happens when the fingerprints differ: the model then ships
    the record both ways and leaves the decision to the merge on either
    side, which has the values. *)
Definition compare_with_hash (mine theirs : Value) : Verdict :=
  match version mine ?= version theirs with
  | Lt => PeerDominates
  | Gt => LocalDominates
  | Eq =>
      match String.compare (originatorId mine) (originatorId theirs) with
      | Lt => PeerDominates
      | Gt => LocalDominates
      | Eq =>
          if decide (Some (AreaDb.generateHash mine) = hash theirs)
          then Tied else Undecided
      end
  end.

Definition wanted_from_peer (mine : KeyVals) (key : string) (theirs : Value) : bool :=
  match mine !! key with
  | None => true
  | Some m =>
      match compare_with_hash m theirs with
      | PeerDominates | Undecided => true
      | _ => false
      end
  end.

Definition given_to_peer (their_hashes : KeyVals) (key : string) (m : Value) : bool :=
  match their_hashes !! key with
  | None => true
  | Some theirs =>
      match compare_with_hash m theirs with
      | LocalDominates | Undecided => true
      | _ => false
      end
  end.

(** The keys whose records the requester asks for. *)
Definition need_from_peer (mine their_hashes : KeyVals) : KeyVals :=
  filter (fun kv => wanted_from_peer mine kv.1 kv.2 = true) their_hashes.

(** The records the requester sends. *)
Definition give_to_peer (mine their_hashes : KeyVals) : KeyVals :=
  filter (fun kv => given_to_peer their_hashes kv.1 kv.2 = true) mine.

(** The records the responder ships for the keys the requester asks for. *)
Definition requested_records (need theirs : KeyVals) : KeyVals :=
  filter (fun kv => is_Some (need !! kv.1)) theirs.

(** The records of requester and responder after one exchange: the
    requester merges what it asked for, the responder what it was sent. *)
Definition exchange (mine theirs : KeyVals) : KeyVals * KeyVals :=
  let their_hashes := AreaDb.dump_hashes theirs in
  let need := need_from_peer mine their_hashes in
  let give := give_to_peer mine their_hashes in
  ((AreaDb.mergeKeyValues mine (requested_records need theirs)).1,
   (AreaDb.mergeKeyValues theirs give).1).

(** The dominant record of two optional ones; of two records equal under
    the rule the first stays. *)
Definition dominant (own other : option Value) : option Value :=
  match own, other with
  | Some a, Some b => if AreaDb.dominates b a then Some b else Some a
  | Some a, None => Some a
  | None, _ => other
  end.

Definition same_port (a b : Z) : bool := bool_decide (a = b).

(** The store a peer spec leads to: the named store, when it runs, listens
    at the address and port of the spec and configures the area. *)
Definition reach (w : World) (area : AreaId) (peerName : string) (spec : PeerSpec)
    : option (Store * KvStoreDb) :=
  match stores w !! peerName with
  | None => None
  | Some p =>
      if running p && bool_decide (thrift_addr p = peerAddr spec)
         && same_port (thrift_port p) (ctrlPort spec)
      then match areas p !! area with
           | Some db => Some (p, db)
           | None => None
           end
      else None
  end.

(** The session fails: the peer cannot be reached.  The entry falls back
    to IDLE. *)
Definition sync_failed (self : Store) (area : AreaId) (peerName : string)
    (w : World) : World :=
  let w := bump "kvstore.thrift.num_full_sync_failure.count" w in
  set_store (update_peers area (alter (transition THRIFT_API_ERROR) peerName) self) w.

(** Modelled from the spec: the three messages of section 4.3, for a
    session that reaches the store [peer] with its database [theirs].
    The requester always sends its records, also when it has none to
    send. *)
Definition sync_exchange (self : Store) (mine : KvStoreDb) (area : AreaId)
    (peerName : string) (peer : Store) (theirs : KvStoreDb) (w : World) : World :=
  (* 1. the responder returns its hashes *)
  let their_hashes := AreaDb.dump_hashes (db_keyVals theirs) in
  (* 2. the requester computes what to ask for and what to send *)
  let need := need_from_peer (db_keyVals mine) their_hashes in
  let give := give_to_peer (db_keyVals mine) their_hashes in
  let records := requested_records need (db_keyVals theirs) in
  let self1 :=
    match commit area records None (Some peerName) self with
    | Some (s, _) => s
    | None => self
    end in
  let w := bump "kvstore.thrift.num_full_sync_success.count" w in
  let w := bump "kvstore.thrift.num_finalized_sync.count" w in
  let peer1 :=
    match commit area give None (Some (node_name self)) peer with
    | Some (s, _) => s
    | None => peer
    end in
  let w := bump "kvstore.thrift.num_finalized_sync_success.count" w in
  (* 3. completion on both sides; the responder has a view of the
     requester only when the requester is its peer too *)
  let self2 := update_peers area (alter (transition SYNC_RESP_RCVD) peerName) self1 in
  let peer2 :=
    update_peers area (alter (transition SYNC_RESP_RCVD) (node_name self)) peer1 in
  set_store self2 (set_store peer2 w).

(** Modelled from the spec: one sync session of [self] with the peer
    [peerName] (section 4.3), whose entry is in state SYNCING.  [self] is a store of the world that configures the
    area, and [mine] its database there.  The counters count the session
    when it starts and when it succeeds or fails, and the same for the
    step that sends the requester's records. *)
Definition full_sync (self : Store) (mine : KvStoreDb) (area : AreaId)
    (peerName : string) (spec : PeerSpec) (w : World) : World :=
  let w := bump "kvstore.thrift.num_full_sync.count" w in
  match reach w area peerName spec with
  | None => sync_failed self area peerName w
  | Some (peer, theirs) => sync_exchange self mine area peerName peer theirs w
  end.

(** Modelled from the spec: a peer is added (section 4.2).  An old entry
    of the name is dropped, the new one starts in IDLE, takes PEER_ADD and
    the sync session begins. *)
Definition add_peer (self : string) (area : AreaId) (w : World)
    (peerName : string) (spec : PeerSpec) : World :=
  match stores w !! self with
  | None => w
  | Some s =>
      let entry :=
        transition PEER_ADD
          {| peerAddr := peerAddr spec; ctrlPort := ctrlPort spec; peer_state := IDLE |} in
      let s1 := update_peers area (fun ps => <[peerName := entry]> (delete peerName ps)) s in
      match areas s1 !! area with
      | None => w
      | Some mine => full_sync s1 mine area peerName entry (set_store s1 w)
      end
  end.

(** *** The calls of the wrapper, answered by the store [self] *)

(** Modelled from the spec: the operations of section 4.6 and their error
    contract.  A call on a store that does not run, or for an area the
    store does not configure, fails; a write that the dominance rule
    rejects does not.  The dump reads its prefixes from the keys of the
    parameters. *)

Definition usable (w : World) (self : string) (area : AreaId) : option Store :=
  match stores w !! self with
  | Some s => if running s && bool_decide (is_Some (areas s !! area)) then Some s else None
  | None => None
  end.

Definition setKvStoreKeyVals (self : string) (w : World) (area : AreaId)
    (params : KeySetParams) : World * Try unit :=
  match usable w self area with
  | None => (w, TryException "invalid area or store not running")
  | Some s =>
      match commit area (set_keyVals params) (set_nodeIds params) None s with
      | Some (s', _) => (set_store s' w, TryValue tt)
      | None => (w, TryException "invalid area or store not running")
      end
  end.

Definition getKvStoreKeyVals (self : string) (w : World) (area : AreaId)
    (params : KeyGetParams) : GetTry Publication :=
  match usable w self area with
  | None => Fulfilled (TryException "invalid area or store not running")
  | Some s =>
      let kvs := default ∅ (db_keyVals <$> areas s !! area) in
      Fulfilled (TryValue
        {| pub_area := area;
           pub_keyVals := filter (fun kv => kv.1 ∈ get_keys params) kvs;
           pub_expiredKeys := []; pub_nodeIds := None |})
  end.

Definition dump_area (self : string) (w : World) (params : KeyDumpParams)
    (area : AreaId) : option Publication :=
  match usable w self area with
  | None => None
  | Some s =>
      let kvs := default ∅ (db_keyVals <$> areas s !! area) in
      Some {| pub_area := area;
              pub_keyVals := AreaDb.dump (default [] (dump_keys params))
                                         (dump_originatorIds params) kvs;
              pub_expiredKeys := []; pub_nodeIds := None |}
  end.

Definition dumpKvStoreKeys (self : string) (w : World) (params : KeyDumpParams)
    (selectAreas : list AreaId) : Try (list Publication) :=
  match mapM (dump_area self w params) selectAreas with
  | Some pubs => TryValue pubs
  | None => TryException "invalid area or store not running"
  end.

Definition addUpdateKvStorePeers (self : string) (w : World) (area : AreaId)
    (peers : PeersMap) : World * Try unit :=
  match usable w self area with
  | None => (w, TryException "invalid area or store not running")
  | Some _ =>
      (fold_left (fun w p => add_peer self area w p.1 p.2) (map_to_list peers) w,
       TryValue tt)
  end.

Definition deleteKvStorePeers (self : string) (w : World) (area : AreaId)
    (peerNames : list string) : World * Try unit :=
  match usable w self area with
  | None => (w, TryException "invalid area or store not running")
  | Some s =>
      (set_store (update_peers area (fun ps => fold_right delete ps peerNames) s) w,
       TryValue tt)
  end.

Definition getKvStorePeerState (self : string) (w : World) (area : AreaId)
    (peerName : string) : option KvStorePeerState :=
  match stores w !! self with
  | None => None
  | Some s =>
      db ← areas s !! area;
      spec ← db_peers db !! peerName;
      Some (peer_state spec)
  end.

Definition stop_store (self : string) (w : World) : World :=
  {| stores :=
       alter (fun s =>
                {| node_name := node_name s; thrift_addr := thrift_addr s;
                   thrift_port := thrift_port s; running := false;
                   areas := areas s; updates := updates s; outbox := outbox s |})
             self (stores w);
     counters := counters w |}.

Definition is_running (self : string) (w : World) : bool :=
  match stores w !! self with
  | Some s => running s
  | None => false
  end.

(** The store [self] of a world, as the wrapper sees it. *)
Definition api (self : string) : KvStoreApi World :=
  {| isRunning := is_running self;
     kvStore_stop := stop_store self;
     semifuture_setKvStoreKeyVals := setKvStoreKeyVals self;
     semifuture_getKvStoreKeyVals := getKvStoreKeyVals self;
     semifuture_dumpKvStoreKeys := dumpKvStoreKeys self;
     semifuture_addUpdateKvStorePeers := addUpdateKvStorePeers self;
     semifuture_deleteKvStorePeers := deleteKvStorePeers self;
     semifuture_getKvStorePeerState := getKvStorePeerState self |}.

(** The records a store holds in an area. *)
Definition records (self : string) (area : AreaId) (w : World) : KeyVals :=
  default ∅ (s ← stores w !! self; db_keyVals <$> areas s !! area).

(** The store of a name and the database of an area, for a world and a
    store that have them. *)
Definition no_store : Store :=
  {| node_name := ""; thrift_addr := ""; thrift_port := 0; running := false;
     areas := ∅; updates := []; outbox := [] |}.

Definition store_of (name : string) (w : World) : Store :=
  default no_store (stores w !! name).

Definition db_of (area : AreaId) (s : Store) : KvStoreDb :=
  default (mkKvStoreDb ∅ ∅) (areas s !! area).

(** Every store of the world has pushed no initialization event other
    than KVSTORE_SYNCED. *)
Definition emits_only_synced (w : World) : Prop :=
  map_Forall (fun _ s => only_synced (updates s)) (stores w).

(** No store has a flood waiting in its outbox. *)
Definition quiescent (w : World) : bool :=
  forallb (fun s => bool_decide (outbox s.2 = [])) (map_to_list (stores w)).

End KvStore.

(** ** The integration tests of the wrapper *)

Module ThriftTest.

(** Constants and helpers the tests take from other files: the area name
    of the tests, the time-to-live that never expires, the address the
    thrift servers of the tests listen at.  Nothing that is proved depends
    on the values chosen here. *)
Definition kTestingAreaName : AreaId := "test_area_name".
Definition kTtlInfinity : Z := - 2 ^ 31.
Definition kPlatformHost : string := "::1".

Definition createThriftValue (ver : Z) (originator : string) (data : string) : Value :=
  {| version := ver; originatorId := originator; value := Some data;
     ttl := kTtlInfinity; ttlVersion := 0; hash := None |}.

(** KvStoreThriftTestFixture::createKvStore.  The server asks for port 0
    and gets the port the system picks, here [port]. *)
Definition createKvStore (nodeId : string) (port : Z) (w : KvStore.World) : KvStore.World :=
  KvStore.create nodeId [kTestingAreaName] kPlatformHost port w.

Definition node1 : string := "node-1".
Definition node2 : string := "node-2".
Definition value1 : string := "value-1".
Definition value2 : string := "value-2".
Definition k0 : string := "key0".
Definition k1 : string := "key1".
Definition k2 : string := "key2".
Definition k3 : string := "key3".
Definition k4 : string := "key4".
Definition allKeys : list string := [k0; k1; k2; k3; k4].
Definition keyVersionAs : list (string * Z) := [(k0, 5); (k1, 1); (k2, 9); (k3, 1)].
Definition keyVersionBs : list (string * Z) := [(k1, 1); (k2, 1); (k3, 9); (k4, 6)].

(** A test threads the world through its calls and collects the outcome
    of every EXPECT in program order. *)
Record Run := mkRun {
  world : KvStore.World;
  expects : list bool
}.

Definition expect (b : bool) (r : Run) : Run :=
  {| world := world r; expects := (expects r ++ [b])%list |}.

Definition store1_setKey (r : Run) (keyVer : string * Z) : Run :=
  let val := createThriftValue keyVer.2 node1 value1 in
  let res := setKey (kvStoreApi := KvStore.api node1) (world r)
                    kTestingAreaName keyVer.1 val None in
  expect (returned res) {| world := store_after res; expects := expects r |}.

Definition store2_setKey (r : Run) (keyVer : string * Z) : Run :=
  let val := createThriftValue keyVer.2 node1 value2 in
  let val :=
    if decide (keyVer.1 = k1)
    then {| version := version val; originatorId := originatorId val;
            value := Some value1; ttl := ttl val; ttlVersion := ttlVersion val;
            hash := hash val |}
    else val in
  let res := setKey (kvStoreApi := KvStore.api node2) (world r)
                    kTestingAreaName keyVer.1 val None in
  expect (returned res) {| world := store_after res; expects := expects r |}.

(** The first callback: the keys are injected and store1 adds store2 as
    its peer, in this direction only. *)
Definition inject_keys (r : Run) : Run :=
  fold_left store2_setKey keyVersionBs (fold_left store1_setKey keyVersionAs r).

Definition add_one_way_peer (r : Run) : Run :=
  match KvStore.stores (world r) !! node2 with
  | None => expect false r
  | Some store2 =>
      let res := addPeer (kvStoreApi := KvStore.api node1) (world r)
                         kTestingAreaName (KvStore.node_name store2)
                         (KvStore.getPeerSpec store2) in
      expect (returned res) {| world := store_after res; expects := expects r |}
  end.

Definition inject_and_peer (r : Run) : Run := add_one_way_peer (inject_keys r).

(** The second callback: both stores hold every key, with one value and
    one version. *)
Definition compare_key (r : Run) (key : string) : Run :=
  let val1 := returned (getKey (kvStoreApi := KvStore.api node1) (world r)
                               kTestingAreaName key) in
  let val2 := returned (getKey (kvStoreApi := KvStore.api node2) (world r)
                               kTestingAreaName key) in
  let r := expect (bool_decide (is_Some val1)) r in
  let r := expect (bool_decide (is_Some val2)) r in
  let r := expect (bool_decide (val1 ≫= value = val2 ≫= value)) r in
  expect (bool_decide (version <$> val1 = version <$> val2)) r.

(** The third callback: the six counters exist and read 1, 1, 0, 1, 1, 0. *)
Definition check_counters (r : Run) : Run :=
  let cs := KvStore.counters (world r) in
  let r := fold_left (fun r name => expect (bool_decide (is_Some (cs !! name))) r)
                     KvStore.sync_counters r in
  fold_left (fun r ne => expect (bool_decide (cs !! ne.1 = Some ne.2)) r)
            (zip KvStore.sync_counters [1; 1; 0; 1; 1; 0]) r.

(** After the event loop: five keys in both stores, and the records of
    store1. *)
Definition dump_size (self : string) (w : KvStore.World) : option nat :=
  match dumpAll (kvStoreApi := KvStore.api self) self w kTestingAreaName None with
  | Some (TryValue kvs) => Some (size kvs)
  | _ => None
  end.

Definition check_record (r : Run) (expected : string * Z * string) : Run :=
  let '(key, ver, data) := expected in
  let v := returned (getKey (kvStoreApi := KvStore.api node1) (world r)
                            kTestingAreaName key) in
  let r := expect (bool_decide (version <$> v = Some ver)) r in
  expect (bool_decide (v ≫= value = Some data)) r.

Definition final_checks (r : Run) : Run :=
  let r := expect (bool_decide (dump_size node1 (world r) = Some 5%nat)) r in
  let r := expect (bool_decide (dump_size node2 (world r) = Some 5%nat)) r in
  fold_left check_record
    [(k0, 5, value1); (k1, 1, value1); (k2, 9, value1); (k3, 9, value2); (k4, 6, value2)] r.

(** TEST_F(KvStoreThriftTestFixture, UnidirectionThriftFullSync).  The
    counters are reset first; the two stores get the ports [port1] and
    [port2]. *)
Definition two_stores (port1 port2 : Z) : Run :=
  let w := {| KvStore.stores := ∅; KvStore.counters := ∅ |} in
  let w := createKvStore node1 port1 w in
  let w := createKvStore node2 port2 w in
  {| world := w; expects := [] |}.

Definition UnidirectionThriftFullSync (port1 port2 : Z) : Run :=
  let r := inject_and_peer (two_stores port1 port2) in
  let r := fold_left compare_key allKeys r in
  let r := check_counters r in
  final_checks r.

(** The wrapper of store node-1, running, as the constructor and [run]
    leave it. *)
Definition running_wrapper : KvStoreWrapper KvStore.World :=
  {| wrapped_kvStore := createKvStore node1 1001 KvStore.empty_world;
     kvStoreUpdatesQueue_closed := false;
     dummyPeerUpdatesQueue_closed := false;
     dummyKvRequestQueue_closed := false;
     logSampleQueue_closed := false;
     kvStoreServiceHandler_set := true;
     thriftServer_running := true;
     kvStoreThread_joined := false |}.

(** The records the test comment expects in both stores. *)
Definition expected_records : KeyVals :=
  list_to_map
    [ (k0, createThriftValue 5 node1 value1);
      (k1, createThriftValue 1 node1 value1);
      (k2, createThriftValue 9 node1 value1);
      (k3, createThriftValue 9 node1 value2);
      (k4, createThriftValue 6 node1 value2) ].

End ThriftTest.

(** * The rest of the wrapper and the helpers of the tests *)

(** ** The writer half of the updates queue *)

(** Modelled from the spec: the writer class ([messaging::ReplicateQueue])
    is declared outside this file.  An item pushed while the queue is open
    joins the items the reader still has to see, behind those already
    there.  An item pushed to a queue that is closed is dropped: delivery
    is promised only while the queue is open (section 4.5). *)
Definition push (item : KvStorePublication) (q : RQueue) : RQueue :=
  match ending q with
  | StaysOpen => {| pending := pending q ++ [item]; ending := StaysOpen |}
  | Closed => q
  end.

(** KvStoreWrapper::pushToKvStoreUpdatesQueue: a publication with the
    area and the key-values and nothing else goes to the updates queue. *)
Definition pushToKvStoreUpdatesQueue (area : AreaId) (keyVals : KeyVals)
    (kvStoreUpdatesQueue_ : RQueue) : RQueue :=
  let pub :=
    {| pub_area := area; pub_keyVals := keyVals;
       pub_expiredKeys := pub_expiredKeys Publication_default;
       pub_nodeIds := pub_nodeIds Publication_default |} in
  push (PublicationItem pub) kvStoreUpdatesQueue_.

(** The publications among the items of a queue, in order. *)
Fixpoint publications (items : list KvStorePublication) : list Publication :=
  match items with
  | [] => []
  | PublicationItem pub :: rest => pub :: publications rest
  | InitializationEventItem _ :: rest => publications rest
  end.

(** The initialization events among the items of a queue, in order. *)
Fixpoint initialization_events (items : list KvStorePublication)
    : list InitializationEvent :=
  match items with
  | [] => []
  | PublicationItem _ :: rest => initialization_events rest
  | InitializationEventItem event :: rest => event :: initialization_events rest
  end.

(** [n] calls of recvPublication in a row on one reader, as the tests and
    the subscribers of the queue make them: the publications returned, or
    the outcome of the first call that does not return. *)
Fixpoint recvPublication_times (n : nat) (q : RQueue) : Outcome (list Publication) :=
  match n with
  | O => Returned [] q
  | S n =>
      match recvPublication q with
      | Returned pub rest =>
          match recvPublication_times n rest with
          | Returned pubs rest' => Returned (pub :: pubs) rest'
          | other => other
          end
      | Thrown what => Thrown what
      | Aborted => Aborted
      | Blocked => Blocked
      end
  end.

(** ** The read calls of the wrapper *)

(** The calls on [kvStore_] that the functions above do not make.  The
    thrift types of the self-originated key-values and of the area
    summary are declared outside this file and stay abstract. *)
Class KvStoreReadApi (S SelfOriginatedKeyVals KvStoreAreaSummary : Type) := {
  kvStore_run : S → S;
  semifuture_dumpKvStoreHashes : S → AreaId → KeyDumpParams → Try Publication;
  semifuture_dumpKvStoreSelfOriginatedKeys : S → AreaId → Try SelfOriginatedKeyVals;
  semifuture_getKvStorePeers : S → AreaId → Try PeersMap;
  semifuture_getKvStoreAreaSummaryInternal :
    S → gset string → Try (list KvStoreAreaSummary)
}.




Section ReadCalls.
Context {S SelfOriginatedKeyVals KvStoreAreaSummary : Type}.
Context {kvStoreApi : KvStoreApi S}.
Context {kvStoreReadApi : KvStoreReadApi S SelfOriginatedKeyVals KvStoreAreaSummary}.




(** KvStoreWrapper::getPeers *)
Definition getPeers (kvStore_ : S) (area : AreaId) : Try PeersMap :=
  semifuture_getKvStorePeers kvStore_ area.


(** *** run *)

(** The settings [run] gives the thrift server before it starts it. *)
Record ThriftServerSettings := mkThriftServerSettings {
  numIOWorkerThreads : Z;
  numAcceptThreads : Z;
  server_port : Z;
  server_interface_set : bool
}.

(** The wrapper together with what [run] needs to know of the member
    [kvStoreThread_]: whether a thread was ever assigned to it.  The
    thread object is joinable from the assignment until it is joined. *)
Record Lifecycle := mkLifecycle {
  lc_wrapper : KvStoreWrapper S;
  kvStoreThread_assigned : bool;
  thriftServer_settings : option ThriftServerSettings
}.

Definition kvStoreThread_joinable (lc : Lifecycle) : bool :=
  kvStoreThread_assigned lc && negb (kvStoreThread_joined (lc_wrapper lc)).

(** KvStoreWrapper::run.  The new thread is move-assigned to
    [kvStoreThread_]; assigning to a thread object that is joinable ends
    the process ([std::terminate]).  Else the call waits until the store
    runs and starts the thrift server with one IO worker, one accept
    thread, port 0 and the handler as its interface.  No queue is
    touched. *)
Definition run (lc : Lifecycle) : option Lifecycle :=
  if kvStoreThread_joinable lc then None
  else
    let w := lc_wrapper lc in
    Some
      {| lc_wrapper :=
           {| wrapped_kvStore := kvStore_run (wrapped_kvStore w);
              kvStoreUpdatesQueue_closed := kvStoreUpdatesQueue_closed w;
              dummyPeerUpdatesQueue_closed := dummyPeerUpdatesQueue_closed w;
              dummyKvRequestQueue_closed := dummyKvRequestQueue_closed w;
              logSampleQueue_closed := logSampleQueue_closed w;
              kvStoreServiceHandler_set := kvStoreServiceHandler_set w;
              thriftServer_running := true;
              kvStoreThread_joined := false |};
         kvStoreThread_assigned := true;
         thriftServer_settings :=
           Some {| numIOWorkerThreads := 1; numAcceptThreads := 1; server_port := 0;
                   server_interface_set := kvStoreServiceHandler_set w |} |}.

(** [stop] on the same state. *)
Definition stop_lifecycle (lc : Lifecycle) : Lifecycle * list Action :=
  let '(w, actions) := stop (lc_wrapper lc) in
  ({| lc_wrapper := w; kvStoreThread_assigned := kvStoreThread_assigned lc;
      thriftServer_settings := thriftServer_settings lc |}, actions).

(** All four queues of the wrapper are closed. *)
Definition all_queues_closed (w : KvStoreWrapper S) : bool :=
  kvStoreUpdatesQueue_closed w && dummyPeerUpdatesQueue_closed w
  && dummyKvRequestQueue_closed w && logSampleQueue_closed w.

(** The wrapper as its constructor leaves it: the store and the handler
    are made, no thread is assigned, no server is set up, the queues are
    open. *)
Definition constructed (kvStore_ : S) : Lifecycle :=
  {| lc_wrapper :=
       {| wrapped_kvStore := kvStore_;
          kvStoreUpdatesQueue_closed := false;
          dummyPeerUpdatesQueue_closed := false;
          dummyKvRequestQueue_closed := false;
          logSampleQueue_closed := false;
          kvStoreServiceHandler_set := true;
          thriftServer_running := false;
          kvStoreThread_joined := false |};
     kvStoreThread_assigned := false;
     thriftServer_settings := None |}.

(** ** The helpers of the test fixture *)

(** What a polling helper of the fixture comes to. *)
Inductive Verified :=
| VerifiedTrue            (* return true *)
| VerifiedFalse           (* the timeout was logged, return false *)
| VerifyTerminates        (* [processingTimeout.value()] throws in a noexcept function *)
| VerifyPolls.            (* the loop is still polling when the observations end *)

#[global] Instance Verified_eq_dec : EqDecision Verified.
Proof. solve_decision. Defined.

(** One round of a polling loop sees the time since the start and the
    store as it is then. *)
Definition Poll : Type := Z * S.

(** KvStoreThriftTestFixture::verifyKvStoreKeyVal.  Every round reads the
    clock first, gives up when more than the timeout has passed, and
    reads the key only then.  The lines of the log are those of getKey
    and the line of the timeout. *)
Fixpoint verifyKvStoreKeyVal_loop (polls : list Poll) (nodeId : string)
    (key : string) (thriftVal : Value) (area : AreaId) (timeout : Z)
    : Verified * list LogLine :=
  match polls with
  | [] => (VerifyPolls, [])
  | (elapsed, kvStore) :: rest =>
      if timeout <? elapsed
      then (VerifiedFalse,
            [mkLogLine ERR ("Timeout verifying key: " +:+ key
                            +:+ " inside KvStore: " +:+ nodeId)])
      else
        let val := getKey kvStore area key in
        if bool_decide (returned val = Some thriftVal)
        then (VerifiedTrue, logged val)
        else
          let '(v, lines) :=
            verifyKvStoreKeyVal_loop rest nodeId key thriftVal area timeout in
          (v, logged val ++ lines)
  end.

Definition verifyKvStoreKeyVal (polls : list Poll) (nodeId : string)
    (key : string) (thriftVal : Value) (area : AreaId)
    (processingTimeout : option Z) : Verified * list LogLine :=
  match processingTimeout with
  | None => (VerifyTerminates, [])
  | Some timeout => verifyKvStoreKeyVal_loop polls nodeId key thriftVal area timeout
  end.

(** The name thrift prints for a peer state. *)
Definition enumNameSafe (s : KvStorePeerState) : string :=
  match s with
  | IDLE => "IDLE"
  | SYNCING => "SYNCING"
  | INITIALIZED => "INITIALIZED"
  end.

(** KvStoreThriftTestFixture::verifyKvStorePeerState *)
Fixpoint verifyKvStorePeerState_loop (polls : list Poll) (peerName : string)
    (expPeerState : KvStorePeerState) (area : AreaId) (timeout : Z)
    : Verified * list LogLine :=
  match polls with
  | [] => (VerifyPolls, [])
  | (elapsed, kvStore) :: rest =>
      if timeout <? elapsed
      then (VerifiedFalse,
            [mkLogLine ERR ("Timeout verifying state: " +:+ enumNameSafe expPeerState
                            +:+ " against peer: " +:+ peerName)])
      else
        if bool_decide (getPeerState kvStore area peerName = Some expPeerState)
        then (VerifiedTrue, [])
        else verifyKvStorePeerState_loop rest peerName expPeerState area timeout
  end.

Definition verifyKvStorePeerState (polls : list Poll) (peerName : string)
    (expPeerState : KvStorePeerState) (area : AreaId)
    (processingTimeout : option Z) : Verified * list LogLine :=
  match processingTimeout with
  | None => (VerifyTerminates, [])
  | Some timeout => verifyKvStorePeerState_loop polls peerName expPeerState area timeout
  end.

(** A round of verifyKvStoreKeyVal that neither gives up nor succeeds:
    it is in time and getKey does not give the value. *)
Definition keeps_polling_key (area : AreaId) (key : string) (thriftVal : Value)
    (timeout : Z) (poll : Poll) : Prop :=
  poll.1 ≤ timeout ∧ returned (getKey poll.2 area key) ≠ Some thriftVal.

(** The same for verifyKvStorePeerState. *)
Definition keeps_polling_state (area : AreaId) (peerName : string)
    (expPeerState : KvStorePeerState) (timeout : Z) (poll : Poll) : Prop :=
  poll.1 ≤ timeout ∧ getPeerState poll.2 area peerName ≠ Some expPeerState.

End ReadCalls.

Arguments Lifecycle S : clear implicits.
Arguments Poll S : clear implicits.

(** SimpleKvStoreThriftTestFixture::generateRandomDiffPort.  [draws] are
    the values [folly::Random::rand32] hands out, one per round.  The
    port is the draw modulo 65535 plus one, stored in a [uint16_t]; the
    loop ends at the first port that is not in [ports]. *)
Fixpoint generateRandomDiffPort (draws : list Z) (ports : gset Z) : option Z :=
  match draws with
  | [] => None
  | rand32 :: rest =>
      let randPort := (rand32 `mod` 65535 + 1) `mod` 2 ^ 16 in
      if bool_decide (randPort ∈ ports) then generateRandomDiffPort rest ports
      else Some randPort
  end.

(** ** The read calls, answered by the modelled store *)

Module KvStoreReads.
Import KvStore.

(** What a store shows of itself to the calls that read: its name, where
    it listens, whether it runs, and the records of its areas. *)
Definition store_view (s : Store) : string * string * Z * bool * gmap string KeyVals :=
  (node_name s, thrift_addr s, thrift_port s, running s, db_keyVals <$> areas s).

Definition world_view (w : World)
    : gmap string (string * string * Z * bool * gmap string KeyVals) :=
  store_view <$> stores w.

(** Every store of the world is filed under its own name. *)
Definition well_named (w : World) : Prop :=
  ∀ name s, stores w !! name = Some s → node_name s = name.

(** The store has no peer in state INITIALIZED in the area.  Only such
    peers are flooded to (section 4.4), so a write to this store owes no
    flood. *)
Definition no_flood_target (w : World) (self : string) (area : AreaId) : Prop :=
  map_Forall (fun _ spec => peer_state spec ≠ INITIALIZED)
             (db_peers (db_of area (store_of self w))).

(** Modelled from the spec: the start of the store, which is declared
    outside this file.  The store runs once it is started. *)
Definition run_store (self : string) (w : World) : World :=
  {| stores :=
       alter (fun s =>
                {| node_name := node_name s; thrift_addr := thrift_addr s;
                   thrift_port := thrift_port s; running := true;
                   areas := areas s; updates := updates s; outbox := outbox s |})
             self (stores w);
     counters := counters w |}.

(** Modelled from the spec: [dump_hashes] of section 4.6, the records of
    the dump without their values. *)
Definition dumpKvStoreHashes (self : string) (w : World) (area : AreaId)
    (params : KeyDumpParams) : Try Publication :=
  match usable w self area with
  | None => TryException "invalid area or store not running"
  | Some s =>
      let kvs := default ∅ (db_keyVals <$> areas s !! area) in
      TryValue
        {| pub_area := area;
           pub_keyVals :=
             AreaDb.dump_hashes
               (AreaDb.dump (default [] (dump_keys params))
                            (dump_originatorIds params) kvs);
           pub_expiredKeys := []; pub_nodeIds := None |}
  end.

(** Modelled from the spec: [dump_self_originated] of section 4.6. *)
Definition dumpKvStoreSelfOriginatedKeys (self : string) (w : World) (area : AreaId)
    : Try KeyVals :=
  match usable w self area with
  | None => TryException "invalid area or store not running"
  | Some s =>
      TryValue (AreaDb.dump_self_originated self
                  (default ∅ (db_keyVals <$> areas s !! area)))
  end.

(** Modelled from the spec: [get_peers] of section 4.6, the peer table
    with the state of every peer. *)
Definition getKvStorePeers (self : string) (w : World) (area : AreaId) : Try PeersMap :=
  match usable w self area with
  | None => TryException "invalid area or store not running"
  | Some s => TryValue (default ∅ (db_peers <$> areas s !! area))
  end.

(** Modelled from the spec: the summary of an area (section 4.6), here
    its name, its peers and the number of its keys. *)
Record AreaSummary := mkAreaSummary {
  summary_area : AreaId;
  summary_peers : PeersMap;
  summary_keyVals_count : nat
}.

Definition getKvStoreAreaSummaryInternal (self : string) (w : World)
    (selectAreas : gset string) : Try (list AreaSummary) :=
  match stores w !! self with
  | None => TryException "invalid area or store not running"
  | Some s =>
      TryValue
        (map (fun a => mkAreaSummary a.1 (db_peers a.2) (size (db_keyVals a.2)))
             (filter (fun a => a.1 ∈ selectAreas) (map_to_list (areas s))))
  end.

(** The store [self] of a world, as the read calls of the wrapper see
    it. *)
Definition read_api (self : string) : KvStoreReadApi World KeyVals AreaSummary :=
  {| kvStore_run := run_store self;
     semifuture_dumpKvStoreHashes := dumpKvStoreHashes self;
     semifuture_dumpKvStoreSelfOriginatedKeys := dumpKvStoreSelfOriginatedKeys self;
     semifuture_getKvStorePeers := getKvStorePeers self;
     semifuture_getKvStoreAreaSummaryInternal := getKvStoreAreaSummaryInternal self |}.

End KvStoreReads.

(** ** The tests of the simple two-store fixture *)

Module SimpleThriftTest.
Import KvStore KvStoreReads ThriftTest.

Definition key1 : string := "key1".
Definition key2 : string := "key2".
Definition thriftVal1 : Value := createThriftValue 1 node1 "value1".
Definition thriftVal2 : Value := createThriftValue 2 node2 "value2".

(** The time verifyKvStoreKeyVal is given in FullSyncWithException, in
    milliseconds. *)
Definition waitTime_ : Z := 1000.

(** SimpleKvStoreThriftTestFixture::createSimpleThriftTestTopo: two
    stores, one key in each, and the four checks that either key is in
    its store only. *)
Definition createSimpleThriftTestTopo (port1 port2 : Z) : Run :=
  let w := createKvStore node2 port2 (createKvStore node1 port1 empty_world) in
  let set1 := setKey (kvStoreApi := api node1) w kTestingAreaName key1 thriftVal1 None in
  let w := store_after set1 in
  let set2 := setKey (kvStoreApi := api node2) w kTestingAreaName key2 thriftVal2 None in
  let w := store_after set2 in
  let has (self key : string) :=
    bool_decide (is_Some (returned (getKey (kvStoreApi := api self) w
                                           kTestingAreaName key))) in
  {| world := w;
     expects := [returned set1; returned set2;
                 has node1 key1; negb (has node2 key1);
                 negb (has node1 key2); has node2 key2] |}.

(** The number of keys dumpAll returns, when it returns. *)
Definition dump_count (self : string) (w : World) : option nat :=
  match dumpAll (kvStoreApi := api self) self w kTestingAreaName None with
  | Some (TryValue kvs) => Some (size kvs)
  | _ => None
  end.

(** TEST_F(SimpleKvStoreThriftTestFixture, FullSyncWithException).  The
    servers listen at [port1] and [port2]; [draws1] and [draws2] are the
    random numbers of the two searches for a dummy port; [clocks1] and
    [clocks2] are the readings of the clock in the rounds of the two
    verifications, which poll a world that no longer changes.  There is
    no result while a search for a port does not end. *)
Definition FullSyncWithException (port1 port2 : Z) (draws1 draws2 : list Z)
    (clocks1 clocks2 : list Z) : option Run :=
  let r := createSimpleThriftTestTopo port1 port2 in
  let w := world r in
  let store1 := store_of node1 w in
  let store2 := store_of node2 w in
  let usedPorts : gset Z := {[ thrift_port store1; thrift_port store2 ]} in
  match generateRandomDiffPort draws1 usedPorts,
        generateRandomDiffPort draws2 usedPorts with
  | Some dummyPort1, Some dummyPort2 =>
      let peerSpec1 :=
        {| peerAddr := peerAddr (getPeerSpec store1); ctrlPort := dummyPort1;
           peer_state := peer_state (getPeerSpec store1) |} in
      let peerSpec2 :=
        {| peerAddr := peerAddr (getPeerSpec store2); ctrlPort := dummyPort2;
           peer_state := peer_state (getPeerSpec store2) |} in
      let add1 := addPeer (kvStoreApi := api node1) w kTestingAreaName
                          (node_name store2) peerSpec2 in
      let w := store_after add1 in
      let add2 := addPeer (kvStoreApi := api node2) w kTestingAreaName
                          (node_name store1) peerSpec1 in
      let w := store_after add2 in
      let verify1 :=
        verifyKvStoreKeyVal (kvStoreApi := api node1) (map (fun e => (e, w)) clocks1)
                            node1 key2 thriftVal2 kTestingAreaName (Some waitTime_) in
      let verify2 :=
        verifyKvStoreKeyVal (kvStoreApi := api node2) (map (fun e => (e, w)) clocks2)
                            node2 key1 thriftVal1 kTestingAreaName (Some waitTime_) in
      Some
        {| world := w;
           expects :=
             expects r
             ++ [returned add1; returned add2;
                 bool_decide (verify1.1 = VerifiedFalse);
                 bool_decide (verify2.1 = VerifiedFalse);
                 bool_decide (dump_count node1 w = Some 1%nat);
                 bool_decide (dump_count node2 w = Some 1%nat)] |}
  | _, _ => None
  end.

End SimpleThriftTest.

(** * Properties *)

(** ** Reading the updates queue *)

(** Both functions satisfy the equation of the source loop: one [get()],
    the error test, the [std::get_if] test, and the next round. *)
Lemma recvPublication_unfold (q : RQueue) :
  recvPublication q =
  match get q with
  | HasError => Thrown "recvPublication failed"
  | Waits => Blocked
  | HasValue (PublicationItem pub) rest => Returned pub rest
  | HasValue (InitializationEventItem _) rest => recvPublication rest
  end.
Proof.
  destruct q as [[|[pub|event] rest] e]; unfold recvPublication, get; simpl;
    try reflexivity.
  destruct e; reflexivity.
Qed.

Lemma recvKvStoreSyncedSignal_unfold (q : RQueue) :
  recvKvStoreSyncedSignal q =
  match get q with
  | HasError => Thrown "recvPublication failed"
  | Waits => Blocked
  | HasValue (InitializationEventItem event) rest =>
      if decide (event = KVSTORE_SYNCED) then Returned tt rest else Aborted
  | HasValue (PublicationItem _) rest => recvKvStoreSyncedSignal rest
  end.
Proof.
  destruct q as [[|[pub|event] rest] e]; unfold recvKvStoreSyncedSignal, get; simpl;
    try reflexivity.
  destruct e; reflexivity.
Qed.

(** Items of the other variant are skipped, however many there are. *)
Lemma recvPublication_loop_skip (events : list InitializationEvent)
    (rest : list KvStorePublication) (e : Ending) :
  recvPublication_loop (map InitializationEventItem events ++ rest) e =
  recvPublication_loop rest e.
Proof.
  induction events as [|event events IH]; simpl; [reflexivity | exact IH].
Qed.

Lemma recvKvStoreSyncedSignal_loop_skip (pubs : list Publication)
    (rest : list KvStorePublication) (e : Ending) :
  recvKvStoreSyncedSignal_loop (map PublicationItem pubs ++ rest) e =
  recvKvStoreSyncedSignal_loop rest e.
Proof.
  induction pubs as [|pub pubs IH]; simpl; [reflexivity | exact IH].
Qed.

(** The statement after the loop is dead code: neither call ever throws
    the timeout error. *)
Lemma recvPublication_no_timeout (q : RQueue) :
  recvPublication q ≠ Thrown "timeout receiving publication".
Proof.
  destruct q as [items e]; unfold recvPublication; simpl.
  induction items as [|[pub|event] items IH]; simpl.
  - destruct e; discriminate.
  - discriminate.
  - exact IH.
Qed.

Lemma recvKvStoreSyncedSignal_no_timeout (q : RQueue) :
  recvKvStoreSyncedSignal q ≠ Thrown "timeout receiving publication".
Proof.
  destruct q as [items e]; unfold recvKvStoreSyncedSignal; simpl.
  induction items as [|[pub|event] items IH]; simpl.
  - destruct e; discriminate.
  - exact IH.
  - destruct (decide (event = KVSTORE_SYNCED)); discriminate.
Qed.

(** C4: recvPublication and recvKvStoreSyncedSignal read the queue with
    no timeout until the next item of their variant and return at that
    item: recvPublication with the publication, recvKvStoreSyncedSignal
    past the event, which on the updates queue of a store is always
    KVSTORE_SYNCED ([only_synced], the invariant of the writer side).
    While only items of the other variant arrive, each call throws once
    the queue is closed and waits for ever while the queue stays open,
    whatever the number of items.  Neither call ever throws the timeout
    error written after the loop. *)
Theorem recv_waits_for_matching_item
    (events : list InitializationEvent) (pubs : list Publication)
    (pub : Publication) (event : InitializationEvent)
    (post : list KvStorePublication) (e : Ending)
    (Hsynced : only_synced (map PublicationItem pubs
                            ++ InitializationEventItem event :: post)) :
  recvPublication
    {| pending := map InitializationEventItem events ++ PublicationItem pub :: post;
       ending := e |}
  = Returned pub {| pending := post; ending := e |}
  ∧ recvKvStoreSyncedSignal
      {| pending := map PublicationItem pubs ++ InitializationEventItem event :: post;
         ending := e |}
    = Returned tt {| pending := post; ending := e |}
  ∧ recvPublication {| pending := map InitializationEventItem events; ending := Closed |}
    = Thrown "recvPublication failed"
  ∧ recvKvStoreSyncedSignal {| pending := map PublicationItem pubs; ending := Closed |}
    = Thrown "recvPublication failed"
  ∧ recvPublication {| pending := map InitializationEventItem events; ending := StaysOpen |}
    = Blocked
  ∧ recvKvStoreSyncedSignal {| pending := map PublicationItem pubs; ending := StaysOpen |}
    = Blocked
  ∧ (∀ q, recvPublication q ≠ Thrown "timeout receiving publication")
  ∧ (∀ q, recvKvStoreSyncedSignal q ≠ Thrown "timeout receiving publication").
Proof.
  assert (event = KVSTORE_SYNCED) as ->.
  { apply Forall_app in Hsynced as [_ Hsynced].
    apply Forall_cons in Hsynced as [Hevent _]. by apply Hevent. }
  unfold recvPublication, recvKvStoreSyncedSignal; simpl.
  rewrite recvPublication_loop_skip, recvKvStoreSyncedSignal_loop_skip.
  rewrite <- (app_nil_r (map InitializationEventItem events)).
  rewrite <- (app_nil_r (map PublicationItem pubs)).
  rewrite !recvPublication_loop_skip, !recvKvStoreSyncedSignal_loop_skip.
  repeat split; try reflexivity.
  - apply recvPublication_no_timeout.
  - apply recvKvStoreSyncedSignal_no_timeout.
Qed.

Lemma recv_waits_for_matching_item_witness :
  let q1 := {| pending := [InitializationEventItem KVSTORE_SYNCED;
                           PublicationItem Publication_default];
               ending := StaysOpen |} in
  let q2 := {| pending := [PublicationItem Publication_default;
                           InitializationEventItem KVSTORE_SYNCED];
               ending := StaysOpen |} in
  only_synced (pending q2)
  ∧ recvPublication q1
    = Returned Publication_default {| pending := []; ending := StaysOpen |}
  ∧ recvKvStoreSyncedSignal q2 = Returned tt {| pending := []; ending := StaysOpen |}.
Proof.
  intros q1 q2.
  assert (Hinv : only_synced (pending q2)).
  { repeat constructor; intros event Hevent; by inversion Hevent. }
  split; [exact Hinv |].
  destruct (recv_waits_for_matching_item [KVSTORE_SYNCED] [Publication_default]
              Publication_default KVSTORE_SYNCED [] StaysOpen Hinv)
    as (Hpub & Hsig & _).
  split; [exact Hpub | exact Hsig].
Defined.

(** C8: the items of the other variant that a call reads on its way are
    gone from the reader.  After the call the reader holds what followed
    the matching item and nothing else, so the next call of either
    function cannot see them: it behaves as on a queue that never held
    them. *)
Theorem recv_discards_other_variant
    (events : list InitializationEvent) (pubs : list Publication)
    (pub : Publication) (post : list KvStorePublication) (e : Ending) :
  let q1 := {| pending := map InitializationEventItem events
                          ++ PublicationItem pub :: post;
               ending := e |} in
  let q2 := {| pending := map PublicationItem pubs
                          ++ InitializationEventItem KVSTORE_SYNCED :: post;
               ending := e |} in
  let after := {| pending := post; ending := e |} in
  recvPublication q1 = Returned pub after
  ∧ recvKvStoreSyncedSignal q2 = Returned tt after
  ∧ next_call (recvPublication q1) recvKvStoreSyncedSignal
    = Some (recvKvStoreSyncedSignal after)
  ∧ next_call (recvPublication q1) recvPublication = Some (recvPublication after)
  ∧ next_call (recvKvStoreSyncedSignal q2) recvPublication
    = Some (recvPublication after)
  ∧ next_call (recvKvStoreSyncedSignal q2) recvKvStoreSyncedSignal
    = Some (recvKvStoreSyncedSignal after).
Proof.
  intros q1 q2 after.
  assert (Hpub : recvPublication q1 = Returned pub after).
  { unfold recvPublication, q1; simpl. by rewrite recvPublication_loop_skip. }
  assert (Hsig : recvKvStoreSyncedSignal q2 = Returned tt after).
  { unfold recvKvStoreSyncedSignal, q2; simpl.
    by rewrite recvKvStoreSyncedSignal_loop_skip. }
  rewrite Hpub, Hsig. repeat split; reflexivity.
Qed.

(** A store that pushed its sync signal and then one publication: once
    recvPublication has returned the publication, the signal is lost and
    a reader that waits for it waits for ever. *)
Example synced_signal_lost (pub : Publication) :
  next_call
    (recvPublication
       {| pending := [InitializationEventItem KVSTORE_SYNCED; PublicationItem pub];
          ending := StaysOpen |})
    recvKvStoreSyncedSignal
  = Some Blocked.
Proof. reflexivity. Qed.

(** The CHECK of recvKvStoreSyncedSignal never fails on a queue that
    holds no initialization event other than KVSTORE_SYNCED. *)
Lemma recvKvStoreSyncedSignal_loop_no_abort (items : list KvStorePublication)
    (e : Ending) :
  only_synced items → recvKvStoreSyncedSignal_loop items e ≠ Aborted.
Proof.
  induction 1 as [|item items Hitem _ IH]; simpl.
  - destruct e; discriminate.
  - destruct item as [pub|event]; [exact IH |].
    rewrite (Hitem event eq_refl). discriminate.
Qed.

(** C9: recvKvStoreSyncedSignal checks the initialization event it takes
    from the queue against KVSTORE_SYNCED, and a different event ends the
    process.  On a queue whose initialization events are all
    KVSTORE_SYNCED the check never fails, and the call returns at the
    first initialization event. *)
Theorem recvKvStoreSyncedSignal_check (q : RQueue) (pubs : list Publication)
    (event : InitializationEvent) (post : list KvStorePublication)
    (Hq : pending q = map PublicationItem pubs ++ InitializationEventItem event :: post) :
  (event ≠ KVSTORE_SYNCED → recvKvStoreSyncedSignal q = Aborted)
  ∧ (only_synced (pending q) →
     recvKvStoreSyncedSignal q ≠ Aborted
     ∧ recvKvStoreSyncedSignal q = Returned tt {| pending := post; ending := ending q |}).
Proof.
  unfold recvKvStoreSyncedSignal. rewrite Hq, recvKvStoreSyncedSignal_loop_skip.
  simpl. split.
  - intros Hne. by destruct (decide (event = KVSTORE_SYNCED)).
  - intros Hinv.
    assert (event = KVSTORE_SYNCED) as ->.
    { apply Forall_app in Hinv as [_ Hinv].
      apply Forall_cons in Hinv as [Hevent _]. by apply Hevent. }
    split; [discriminate | reflexivity].
Qed.

Lemma recvKvStoreSyncedSignal_check_witness :
  let q := {| pending := [PublicationItem Publication_default;
                          InitializationEventItem KVSTORE_SYNCED];
              ending := StaysOpen |} in
  only_synced (pending q)
  ∧ recvKvStoreSyncedSignal q ≠ Aborted
  ∧ recvKvStoreSyncedSignal q = Returned tt {| pending := []; ending := StaysOpen |}.
Proof.
  intros q.
  assert (Hinv : only_synced (pending q)).
  { repeat constructor; intros event Hevent; by inversion Hevent. }
  split; [exact Hinv |].
  exact (proj2 (recvKvStoreSyncedSignal_check q [Publication_default]
                  KVSTORE_SYNCED [] eq_refl) Hinv).
Defined.

(** ** The calls of the wrapper on any store *)

Section WrapperProperties.
Context {S : Type} {kvStoreApi : KvStoreApi S}.

Lemma emplace_empty (key : string) (v : Value) : emplace key v ∅ = {[ key := v ]}.
Proof. unfold emplace. rewrite lookup_empty. apply insert_empty. Qed.

(** [emplace] keeps an entry that is there. *)
Lemma emplace_lookup (key k : string) (v : Value) (m : KeyVals) :
  emplace key v m !! k =
  match m !! k with
  | Some old => Some old
  | None => if decide (key = k) then Some v else None
  end.
Proof.
  unfold emplace. destruct (m !! key) as [old|] eqn:Hkey.
  - destruct (m !! k) eqn:Hk; [reflexivity |].
    destruct (decide (key = k)) as [->|]; congruence.
  - rewrite lookup_insert. destruct (decide (key = k)) as [->|].
    + by rewrite Hkey.
    + by destruct (m !! k).
Qed.

(** The batch of setKeys keeps, for a key that occurs more than once, the
    first of its entries. *)
Lemma setKeys_params_lookup (keyVals : list (string * Value)) (m : KeyVals)
    (k : string) :
  fold_left (fun m kv => emplace kv.1 kv.2 m) keyVals m !! k =
  match m !! k with
  | Some old => Some old
  | None => snd <$> List.find (fun kv => bool_decide (kv.1 = k)) keyVals
  end.
Proof.
  revert m. induction keyVals as [|[key v] keyVals IH]; intros m; simpl.
  - by destruct (m !! k).
  - rewrite IH, emplace_lookup. destruct (m !! k) as [old|]; [reflexivity |].
    destruct (decide (key = k)) as [->|Hne].
    + by rewrite bool_decide_eq_true_2.
    + by rewrite bool_decide_eq_false_2.
Qed.

(** C1 (amended): setKey returns true exactly when the call
    setKvStoreKeyVals on the store, with the one entry, completes
    without an exception, and false exactly when it throws; setKeys
    does the same with one call for the whole batch.  The value of the
    completed call is not inspected: whether the store accepted an entry
    under the dominance rule has no part in the result. *)
Theorem setKey_true_iff_no_exception (kvStore_ : S) (area : AreaId)
    (key : string) (v : Value) (keyVals : list (string * Value))
    (nodeIds : option (list string)) :
  let one := {| set_keyVals := {[ key := v ]}; set_nodeIds := nodeIds |} in
  let batch :=
    {| set_keyVals := fold_left (fun m kv => emplace kv.1 kv.2 m) keyVals ∅;
       set_nodeIds := nodeIds |} in
  (returned (setKey kvStore_ area key v nodeIds) = true
   ↔ ∃ s', semifuture_setKvStoreKeyVals kvStore_ area one = (s', TryValue tt))
  ∧ (returned (setKey kvStore_ area key v nodeIds) = false
     ↔ ∃ s' what,
         semifuture_setKvStoreKeyVals kvStore_ area one = (s', TryException what))
  ∧ (returned (setKeys kvStore_ area keyVals nodeIds) = true
     ↔ ∃ s', semifuture_setKvStoreKeyVals kvStore_ area batch = (s', TryValue tt))
  ∧ (returned (setKeys kvStore_ area keyVals nodeIds) = false
     ↔ ∃ s' what,
         semifuture_setKvStoreKeyVals kvStore_ area batch = (s', TryException what)).
Proof.
  intros one batch. unfold setKey, setKeys. rewrite emplace_empty.
  fold one. fold batch.
  destruct (semifuture_setKvStoreKeyVals kvStore_ area one) as [s1 [[]|what1]];
    destruct (semifuture_setKvStoreKeyVals kvStore_ area batch) as [s2 [[]|what2]];
    simpl; repeat split; intros; try discriminate; eauto;
    repeat match goal with
           | H : ∃ _, _ |- _ => destruct H
           | H : (_, _) = (_, _) |- _ => discriminate H
           end.
Qed.

(** C5: getKey asks the store for the key with the fixed read timeout.
    When the store answers, the result is the record the answer holds
    for the key, and none when it holds no such record.  When the
    timeout expires the call logs that and returns none.  It also
    returns none when the answer is an exception or the call throws. *)
Theorem getKey_outcomes (kvStore_ : S) (area : AreaId) (key : string) :
  let r := getKey kvStore_ area key in
  store_after r = kvStore_
  ∧ match semifuture_getKvStoreKeyVals kvStore_ area {| get_keys := [key] |} with
    | Fulfilled (TryValue pub) =>
        returned r = pub_keyVals pub !! key ∧ logged r = []
    | ThrowsFutureTimeout =>
        returned r = None
        ∧ logged r = [mkLogLine ERR ("Timed out retrieving key: " +:+ key)]
    | Fulfilled (TryException _) =>
        returned r = None
        ∧ logged r = [mkLogLine ERR ("Failed to retrieve key from KvStore. Key: " +:+ key)]
    | ThrowsException what =>
        returned r = None
        ∧ logged r = [mkLogLine WARNING ("Exception to get key from kvstore: " +:+ what)]
    end.
Proof.
  unfold getKey.
  destruct (semifuture_getKvStoreKeyVals kvStore_ area {| get_keys := [key] |})
    as [[pub|what]| |what]; simpl; repeat split; reflexivity.
Qed.

(** C10: addPeer is addPeers on the map that holds the one peer: the
    same call on the store, the same store afterwards, the same result
    and the same log. *)
Theorem addPeer_is_addPeers_singleton (kvStore_ : S) (area : AreaId)
    (peerName : string) (spec : PeerSpec) :
  addPeer kvStore_ area peerName spec = addPeers kvStore_ area {[ peerName := spec ]}
  ∧ (returned (addPeer kvStore_ area peerName spec) = true
     ↔ ∃ s', semifuture_addUpdateKvStorePeers kvStore_ area {[ peerName := spec ]}
             = (s', TryValue tt)).
Proof.
  split; [reflexivity |]. unfold addPeer, addPeers.
  destruct (semifuture_addUpdateKvStorePeers kvStore_ area {[ peerName := spec ]})
    as [s' [[]|what]]; simpl; split; intros; try discriminate; eauto.
  destruct H as [? H]; discriminate H.
Qed.

(** *** stop *)

(** C6: stop on a store that does not run returns at once; the state of
    the wrapper is as before and nothing happens but the debug line at
    entry.  On a running store stop closes the updates queue first,
    stops the store after that and joins its thread last.  A second stop
    leaves the state the first one made: stop is idempotent.  The store
    is taken not to run once it has been stopped. *)
Theorem stop_idempotent
    (Hstop : ∀ s : S, isRunning (kvStore_stop s) = false)
    (w : KvStoreWrapper S) :
  (isRunning (wrapped_kvStore w) = false → stop w = (w, [stopped_log]))
  ∧ (isRunning (wrapped_kvStore w) = true →
     kvStoreUpdatesQueue_closed (stop w).1 = true
     ∧ isRunning (wrapped_kvStore (stop w).1) = false
     ∧ ∃ between after,
         ((stop w).2 =
          [stopped_log; CloseKvStoreUpdatesQueue] ++ between
          ++ [StopKvStore; JoinKvStoreThread] ++ after)
         ∧ (StopKvStore ∉ between) ∧ (JoinKvStoreThread ∉ between))
  ∧ stop (stop w).1 = ((stop w).1, [stopped_log]).
Proof.
  unfold stop, stopped_log.
  destruct (isRunning (wrapped_kvStore w)) eqn:Hrun; simpl.
  - split; [discriminate |]. split.
    + intros _. split; [reflexivity |]. split; [apply Hstop |].
      destruct (kvStoreServiceHandler_set w); simpl.
      * exists [CloseDummyPeerUpdatesQueue; CloseDummyKvRequestQueue;
                CloseLogSampleQueue; StopThriftServer].
        eexists. split; [reflexivity |].
        split; intros Hin; repeat (apply elem_of_cons in Hin as [Hin|Hin];
          [discriminate |]); by apply elem_of_nil in Hin.
      * exists [CloseDummyPeerUpdatesQueue; CloseDummyKvRequestQueue;
                CloseLogSampleQueue].
        eexists. split; [reflexivity |].
        split; intros Hin; repeat (apply elem_of_cons in Hin as [Hin|Hin];
          [discriminate |]); by apply elem_of_nil in Hin.
    + by rewrite Hstop.
  - split; [reflexivity |]. split; [discriminate |]. by rewrite Hrun.
Qed.

End WrapperProperties.

(** ** The peer state machine *)

(** C3: the transition function is the table of section 4.2.  It gives
    the five next states of the table, and for every row of the table, so
    for every pair of state and event the table lists, a next state is
    defined and is the one of the row. *)
Theorem getNextState_table :
  getNextState IDLE PEER_ADD = Some SYNCING
  ∧ getNextState SYNCING SYNC_RESP_RCVD = Some INITIALIZED
  ∧ getNextState SYNCING THRIFT_API_ERROR = Some IDLE
  ∧ getNextState INITIALIZED SYNC_RESP_RCVD = Some INITIALIZED
  ∧ getNextState INITIALIZED THRIFT_API_ERROR = Some IDLE
  ∧ Forall (fun row => getNextState row.1.2 row.1.1 = Some row.2) transition_table
  ∧ Forall (fun ok => ok = true) StateTransitionTest.
Proof.
  repeat split; try reflexivity.
  - unfold transition_table. repeat constructor.
  - unfold StateTransitionTest. repeat constructor.
Qed.

(** The table and the function say the same: a next state is defined for
    the pairs of the table and for no other. *)
Lemma getNextState_iff_table (s s' : KvStorePeerState) (e : KvStorePeerEvent) :
  getNextState s e = Some s' ↔ (e, s, s') ∈ transition_table.
Proof.
  unfold transition_table. split.
  - destruct s, e; simpl; intros Hs; inversion Hs; subst; set_solver.
  - intros Hin. repeat (apply elem_of_cons in Hin as [Hin|Hin];
      [by inversion Hin |]). by apply elem_of_nil in Hin.
Qed.

(** From INITIALIZED the response event is idempotent, the error event is
    not. *)
Lemma getNextState_initialized_twice :
  (getNextState INITIALIZED SYNC_RESP_RCVD ≫= fun s => getNextState s SYNC_RESP_RCVD)
  = getNextState INITIALIZED SYNC_RESP_RCVD
  ∧ (getNextState INITIALIZED THRIFT_API_ERROR ≫= fun s => getNextState s THRIFT_API_ERROR)
    = None.
Proof. split; reflexivity. Qed.

(** ** The dominance rule *)

Section Dominance.
Import AreaDb.

Lemma string_compare_refl (x : string) : String.compare x x = Eq.
Proof.
  induction x as [|c x IH]; simpl; [reflexivity |].
  unfold Ascii.compare. by rewrite N.compare_refl.
Qed.

Lemma compare_value_bytes_refl (a : option string) : compare_value_bytes a a = Eq.
Proof.
  destruct a as [x|]; simpl; [| reflexivity]. apply string_compare_refl.
Qed.

Lemma compare_value_bytes_eq (a b : option string) :
  compare_value_bytes a b = Eq → a = b.
Proof.
  destruct a as [x|], b as [y|]; simpl; try discriminate; [| reflexivity].
  intros Heq. f_equal. by apply String.compare_eq_iff.
Qed.

Lemma compare_value_bytes_antisym (a b : option string) :
  compare_value_bytes b a = CompOpp (compare_value_bytes a b).
Proof.
  destruct a as [x|], b as [y|]; simpl; try reflexivity.
  apply (String.compare_antisym y x).
Qed.

Lemma compareValues_refl (r : Value) : compareValues r r = Eq.
Proof.
  unfold compareValues. rewrite Z.compare_refl.
  rewrite string_compare_refl. apply compare_value_bytes_refl.
Qed.

Lemma compareValues_antisym (r1 r2 : Value) :
  compareValues r2 r1 = CompOpp (compareValues r1 r2).
Proof.
  unfold compareValues. rewrite (Z.compare_antisym (version r1) (version r2)).
  destruct (version r1 ?= version r2); simpl; try reflexivity.
  rewrite (String.compare_antisym (originatorId r2) (originatorId r1)).
  destruct (String.compare (originatorId r1) (originatorId r2)); simpl;
    try reflexivity.
  apply compare_value_bytes_antisym.
Qed.

(** Equal under the rule means equal in version, originator and value. *)
Lemma compareValues_eq (r1 r2 : Value) :
  compareValues r1 r2 = Eq →
  version r1 = version r2 ∧ originatorId r1 = originatorId r2 ∧ value r1 = value r2.
Proof.
  unfold compareValues.
  destruct (version r1 ?= version r2) eqn:Hv; try discriminate.
  destruct (String.compare (originatorId r1) (originatorId r2)) eqn:Ho;
    try discriminate.
  intros Hb. split; [by apply Z.compare_eq_iff |].
  split; [by apply String.compare_eq_iff | by apply compare_value_bytes_eq].
Qed.

(** Of two records of one key exactly one case holds: the first
    dominates, the second dominates, or they are equal under the rule. *)
Lemma dominance_total (r1 r2 : Value) :
  (dominates r1 r2 = true ∧ dominates r2 r1 = false ∧ compareValues r1 r2 ≠ Eq)
  ∨ (dominates r1 r2 = false ∧ dominates r2 r1 = true ∧ compareValues r1 r2 ≠ Eq)
  ∨ (dominates r1 r2 = false ∧ dominates r2 r1 = false ∧ compareValues r1 r2 = Eq).
Proof.
  unfold dominates. rewrite (compareValues_antisym r1 r2).
  destruct (compareValues r1 r2); simpl; intuition discriminate.
Qed.

(** A record never dominates itself: writing it again is rejected. *)
Lemma accepts_same (r : Value) : accepts (Some r) r = false.
Proof. unfold accepts, dominates. by rewrite compareValues_refl. Qed.

Lemma set_rejected (key : string) (r : Value) (db : KeyVals) :
  accepts (db !! key) r = false → set key r db = (db, false).
Proof. unfold set. by intros ->. Qed.

Lemma lookup_mergeKeyValues (db delta : KeyVals) (key : string) :
  (mergeKeyValues db delta).1 !! key = merged_entry (db !! key) (delta !! key)
  ∧ (mergeKeyValues db delta).2 !! key = accepted_entry (db !! key) (delta !! key).
Proof.
  unfold mergeKeyValues; simpl. rewrite !lookup_merge. unfold diag_None.
  by destruct (db !! key), (delta !! key).
Qed.

(** A delta with one entry merges as [set] writes. *)
Lemma mergeKeyValues_singleton (db : KeyVals) (key : string) (r : Value) :
  (mergeKeyValues db {[ key := r ]}).1 = (set key r db).1.
Proof.
  apply map_eq. intros k.
  rewrite (proj1 (lookup_mergeKeyValues _ _ _)). unfold set, merged_entry.
  destruct (decide (key = k)) as [->|Hne].
  - rewrite lookup_singleton_eq.
    destruct (accepts (db !! k) r); simpl; by rewrite ?lookup_insert_eq.
  - rewrite lookup_singleton_ne by done.
    destruct (accepts (db !! key) r); simpl; by rewrite ?lookup_insert_ne.
Qed.

End Dominance.

(** ** The three-way sync *)

Section Sync.
Import AreaDb KvStore.

(** Equal fingerprints mean equal version, originator and value. *)
Lemma generateHash_inj (a b : Value) :
  generateHash a = generateHash b →
  version a = version b ∧ originatorId a = originatorId b ∧ value a = value b.
Proof.
  unfold generateHash. intros Heq. apply (inj encode) in Heq.
  by injection Heq as -> -> ->.
Qed.

(** The verdict on the hash-only record agrees with the dominance rule on
    the full records. *)
Lemma compare_with_hash_sound (a b : Value) :
  match compare_with_hash a (hash_only b) with
  | PeerDominates => compareValues a b = Lt
  | LocalDominates => compareValues a b = Gt
  | Tied => compareValues a b = Eq
  | Undecided => compareValues a b ≠ Eq
  end.
Proof.
  unfold compare_with_hash, compareValues; simpl.
  destruct (version a ?= version b) eqn:Hv; try reflexivity.
  destruct (String.compare (originatorId a) (originatorId b)) eqn:Ho; try reflexivity.
  destruct (decide (Some (generateHash a) = Some (generateHash b))) as [Heq|Hne].
  - injection Heq as Heq. apply generateHash_inj in Heq as (_ & _ & ->).
    apply compare_value_bytes_refl.
  - intros Hb. apply Hne. f_equal. unfold generateHash.
    apply Z.compare_eq_iff in Hv. apply String.compare_eq_iff in Ho.
    apply compare_value_bytes_eq in Hb. by rewrite Hv, Ho, Hb.
Qed.

Lemma lookup_dump_hashes (db : KeyVals) (key : string) :
  dump_hashes db !! key = hash_only <$> db !! key.
Proof. unfold dump_hashes. apply lookup_fmap. Qed.

Lemma lookup_filter_bool {A} (f : string → A → bool) (m : gmap string A) (key : string) :
  filter (fun kv => f kv.1 kv.2 = true) m !! key =
  match m !! key with
  | Some x => if f key x then Some x else None
  | None => None
  end.
Proof.
  rewrite map_lookup_filter. destruct (m !! key) as [x|]; simpl; [| reflexivity].
  destruct (f key x) eqn:Hf.
  - by rewrite option_guard_True.
  - rewrite option_guard_False; [reflexivity | simpl; congruence].
Qed.

Lemma lookup_requested_records (need theirs : KeyVals) (key : string) :
  requested_records need theirs !! key =
  match need !! key with
  | Some _ => theirs !! key
  | None => None
  end.
Proof.
  unfold requested_records. rewrite map_lookup_filter.
  destruct (theirs !! key) as [x|]; cbn [mbind option_bind fst].
  - destruct (need !! key) eqn:Hn.
    + by rewrite option_guard_True.
    + rewrite option_guard_False; [reflexivity |]. by intros [? ?].
  - by destruct (need !! key).
Qed.

(** After one exchange each side holds, for every key, the dominant one
    of its own record and the record of the other side. *)
Theorem exchange_dominant (mine theirs : KeyVals) (key : string) :
  (exchange mine theirs).1 !! key = dominant (mine !! key) (theirs !! key)
  ∧ (exchange mine theirs).2 !! key = dominant (theirs !! key) (mine !! key).
Proof.
  unfold exchange. cbn [fst snd].
  rewrite (proj1 (lookup_mergeKeyValues _ _ _)).
  rewrite (proj1 (lookup_mergeKeyValues _ _ _)).
  rewrite lookup_requested_records.
  unfold need_from_peer, give_to_peer.
  rewrite (lookup_filter_bool (wanted_from_peer mine)).
  rewrite (lookup_filter_bool (given_to_peer (dump_hashes theirs))).
  unfold wanted_from_peer, given_to_peer. rewrite lookup_dump_hashes.
  destruct (mine !! key) as [a|] eqn:Ha, (theirs !! key) as [b|] eqn:Hb; simpl;
    try (split; reflexivity).
  pose proof (compare_with_hash_sound a b) as Hs.
  pose proof (compareValues_antisym a b) as Hanti.
  unfold dominates.
  destruct (compare_with_hash a (hash_only b)); simpl; unfold dominates;
    rewrite Hanti; destruct (compareValues a b); simpl;
    try discriminate; try (split; reflexivity); by destruct Hs.
Qed.

(** The two sides converge: after one exchange their records of a key
    are equal under the dominance rule, in version, originator and value. *)
Corollary exchange_converges (mine theirs : KeyVals) (key : string) :
  match (exchange mine theirs).1 !! key, (exchange mine theirs).2 !! key with
  | Some x, Some y =>
      version x = version y ∧ originatorId x = originatorId y ∧ value x = value y
  | None, None => True
  | _, _ => False
  end.
Proof.
  destruct (exchange_dominant mine theirs key) as [-> ->].
  destruct (mine !! key) as [a|], (theirs !! key) as [b|]; simpl; try done.
  pose proof (compareValues_antisym a b) as Hanti.
  unfold dominates. rewrite Hanti.
  destruct (compareValues a b) eqn:Hc; simpl; try done.
  by apply compareValues_eq.
Qed.

(** When no entry of a delta is accepted the merge leaves the map as it
    is. *)
Lemma mergeKeyValues_none_accepted (db delta : KeyVals) :
  (mergeKeyValues db delta).2 = ∅ → (mergeKeyValues db delta).1 = db.
Proof.
  intros Hacc. apply map_eq. intros key.
  pose proof (lookup_mergeKeyValues db delta key) as [Hm Ha].
  rewrite Hacc, lookup_empty in Ha. rewrite Hm.
  unfold merged_entry, accepted_entry in *.
  destruct (delta !! key) as [i|]; [| reflexivity].
  by destruct (accepts (db !! key) i).
Qed.

(** [commit] leaves in the area the records of the merge, and the name of
    the store as it was. *)
Lemma commit_records (area : AreaId) (delta : KeyVals) (path : option (list string))
    (sender : option string) (s s' : Store) (db : KvStoreDb) (acc : KeyVals) :
  areas s !! area = Some db →
  commit area delta path sender s = Some (s', acc) →
  node_name s' = node_name s
  ∧ db_keyVals <$> areas s' !! area = Some (mergeKeyValues (db_keyVals db) delta).1.
Proof.
  intros Hdb. unfold commit. rewrite Hdb.
  destruct (mergeKeyValues (db_keyVals db) delta) as [kvs' accepted] eqn:Hm.
  destruct (decide (accepted = ∅)) as [Hnone|Hsome]; intros Hc;
    injection Hc as <- <-; simpl.
  - split; [reflexivity |]. rewrite Hdb. simpl. f_equal.
    pose proof (mergeKeyValues_none_accepted (db_keyVals db) delta) as Hsame.
    rewrite Hm in Hsame. simpl in Hsame. symmetry. by apply Hsame.
  - split; [reflexivity |]. by rewrite lookup_insert_eq.
Qed.

Lemma update_peers_records (area a : AreaId) (f : PeersMap → PeersMap) (s : Store) :
  node_name (update_peers area f s) = node_name s
  ∧ db_keyVals <$> areas (update_peers area f s) !! a = db_keyVals <$> areas s !! a.
Proof.
  split; [reflexivity |]. unfold update_peers; simpl.
  destruct (decide (area = a)) as [->|Hne].
  - rewrite lookup_alter_eq. by destruct (areas s !! a).
  - by rewrite lookup_alter_ne.
Qed.

(** The world after a sync session that reaches the peer: the two stores
    hold the records of the exchange. *)
Lemma sync_exchange_records (self peer : Store) (mine theirs : KvStoreDb)
    (area : AreaId) (peerName : string) (w : World) :
  areas self !! area = Some mine →
  areas peer !! area = Some theirs →
  node_name self ≠ node_name peer →
  let w' := sync_exchange self mine area peerName peer theirs w in
  records (node_name self) area w' = (exchange (db_keyVals mine) (db_keyVals theirs)).1
  ∧ records (node_name peer) area w' = (exchange (db_keyVals mine) (db_keyVals theirs)).2.
Proof.
  intros Hmine Htheirs Hne w'. unfold w', sync_exchange, records, set_store, exchange.
  cbn [stores fst snd].
  set (need := need_from_peer _ _). set (give := give_to_peer _ _).
  destruct (commit area (requested_records need (db_keyVals theirs)) None
              (Some peerName) self) as [[s1 acc1]|] eqn:Hc1;
    [| unfold commit in Hc1; rewrite Hmine in Hc1;
       destruct (mergeKeyValues _ _); by destruct (decide _)].
  destruct (commit area give None (Some (node_name self)) peer) as [[p1 acc2]|] eqn:Hc2;
    [| unfold commit in Hc2; rewrite Htheirs in Hc2;
       destruct (mergeKeyValues _ _); by destruct (decide _)].
  destruct (commit_records _ _ _ _ _ _ _ _ Hmine Hc1) as [Hn1 Hr1].
  destruct (commit_records _ _ _ _ _ _ _ _ Htheirs Hc2) as [Hn2 Hr2].
  set (s2 := update_peers area _ s1). set (p2 := update_peers area _ p1).
  assert (Hs2 : node_name s2 = node_name self) by (unfold s2; simpl; congruence).
  assert (Hp2 : node_name p2 = node_name peer) by (unfold p2; simpl; congruence).
  rewrite Hs2, Hp2. split.
  - rewrite lookup_insert_eq. cbn [mbind option_bind].
    unfold s2. rewrite (proj2 (update_peers_records _ _ _ _)), Hr1. reflexivity.
  - rewrite lookup_insert_ne, lookup_insert_eq by done. cbn [mbind option_bind].
    unfold p2. rewrite (proj2 (update_peers_records _ _ _ _)), Hr2. reflexivity.
Qed.

(** *** What a store pushes to its updates queue *)

Lemma only_synced_commit (area : AreaId) (delta : KeyVals) (path : option (list string))
    (sender : option string) (s s' : Store) (acc : KeyVals) :
  only_synced (updates s) →
  commit area delta path sender s = Some (s', acc) →
  only_synced (updates s').
Proof.
  intros Hinv. unfold commit. destruct (areas s !! area) as [db|]; [| discriminate].
  destruct (mergeKeyValues (db_keyVals db) delta) as [kvs' accepted].
  destruct (decide (accepted = ∅)); intros Hc; injection Hc as <- <-; [exact Hinv |].
  simpl. apply Forall_app. split; [exact Hinv |].
  repeat constructor. intros event Hevent. discriminate Hevent.
Qed.

Lemma only_synced_committed (area : AreaId) (delta : KeyVals) (path : option (list string))
    (sender : option string) (s : Store) :
  only_synced (updates s) →
  only_synced (updates match commit area delta path sender s with
                       | Some (s', _) => s'
                       | None => s
                       end).
Proof.
  intros Hinv. destruct (commit area delta path sender s) as [[s' acc]|] eqn:Hc;
    [| exact Hinv]. by eapply only_synced_commit.
Qed.

Lemma emits_only_synced_set_store (s : Store) (w : World) :
  only_synced (updates s) → emits_only_synced w → emits_only_synced (set_store s w).
Proof. intros Hs Hw. by apply map_Forall_insert_2. Qed.

Lemma emits_only_synced_sync_exchange (self peer : Store) (mine theirs : KvStoreDb)
    (area : AreaId) (peerName : string) (w : World) :
  only_synced (updates self) → only_synced (updates peer) → emits_only_synced w →
  emits_only_synced (sync_exchange self mine area peerName peer theirs w).
Proof.
  intros Hself Hpeer Hw. unfold sync_exchange.
  apply emits_only_synced_set_store; [by apply only_synced_committed |].
  apply emits_only_synced_set_store; [by apply only_synced_committed |].
  exact Hw.
Qed.

Lemma emits_only_synced_full_sync (self : Store) (mine : KvStoreDb) (area : AreaId)
    (peerName : string) (spec : PeerSpec) (w : World) :
  only_synced (updates self) → emits_only_synced w →
  emits_only_synced (full_sync self mine area peerName spec w).
Proof.
  intros Hself Hw. unfold full_sync.
  destruct (reach _ area peerName spec) as [[peer theirs]|] eqn:Hreach.
  - apply emits_only_synced_sync_exchange; [exact Hself | | exact Hw].
    unfold reach in Hreach. simpl in Hreach.
    destruct (stores w !! peerName) as [p|] eqn:Hp; [| discriminate].
    destruct (running p && _ && _); [| discriminate].
    destruct (areas p !! area); [| discriminate]. injection Hreach as <- _.
    exact (Hw _ _ Hp).
  - unfold sync_failed. by apply emits_only_synced_set_store.
Qed.

Lemma emits_only_synced_add_peer (self : string) (area : AreaId) (w : World)
    (peerName : string) (spec : PeerSpec) :
  emits_only_synced w → emits_only_synced (add_peer self area w peerName spec).
Proof.
  intros Hw. unfold add_peer. destruct (stores w !! self) as [s|] eqn:Hs; [| exact Hw].
  destruct (areas _ !! area) as [mine|]; [| exact Hw].
  pose proof (Hw _ _ Hs) as Hself.
  apply emits_only_synced_full_sync; [exact Hself |].
  by apply emits_only_synced_set_store.
Qed.

(** The store keeps the invariant the readers of the queue rely on: it
    holds when a store is created, and every call of the wrapper keeps
    it. *)
Theorem store_emits_only_synced (self : string) (w : World) :
  emits_only_synced w →
  (∀ nodeId areaIds addr port, emits_only_synced (create nodeId areaIds addr port w))
  ∧ (∀ area params, emits_only_synced (setKvStoreKeyVals self w area params).1)
  ∧ (∀ area peers, emits_only_synced (addUpdateKvStorePeers self w area peers).1)
  ∧ (∀ area names, emits_only_synced (deleteKvStorePeers self w area names).1)
  ∧ emits_only_synced (stop_store self w).
Proof.
  intros Hw. repeat split.
  - intros nodeId areaIds addr port. unfold create.
    apply map_Forall_insert_2; [| exact Hw]. simpl.
    repeat constructor. intros event Hevent. by injection Hevent as <-.
  - intros area params. unfold setKvStoreKeyVals, usable.
    destruct (stores w !! self) as [s|] eqn:Hs; [| exact Hw].
    destruct (running s && _); [| exact Hw].
    destruct (commit _ _ _ _ s) as [[s' acc]|] eqn:Hc; [| exact Hw].
    simpl. apply emits_only_synced_set_store; [| exact Hw].
    eapply only_synced_commit; [| exact Hc]. exact (Hw _ _ Hs).
  - intros area peers. unfold addUpdateKvStorePeers.
    destruct (usable w self area); [| exact Hw]. simpl.
    generalize (map_to_list peers). intros l. revert w Hw.
    induction l as [|[name spec] l IH]; intros w Hw; simpl; [exact Hw |].
    apply IH. by apply emits_only_synced_add_peer.
  - intros area names. unfold deleteKvStorePeers, usable.
    destruct (stores w !! self) as [s|] eqn:Hs; [| exact Hw].
    destruct (running s && _); [| exact Hw]. simpl.
    apply emits_only_synced_set_store; [| exact Hw]. exact (Hw _ _ Hs).
  - unfold stop_store, emits_only_synced. simpl.
    intros name s Hs. destruct (decide (self = name)) as [->|Hne].
    + rewrite lookup_alter_eq in Hs.
      destruct (stores w !! name) as [s0|] eqn:Hs0; [| discriminate].
      injection Hs as <-. exact (Hw _ _ Hs0).
    + rewrite lookup_alter_ne in Hs by done. exact (Hw _ _ Hs).
Qed.
End Sync.

(** ** The wrapper on the modelled store *)

Section OnTheStore.
Import KvStore ThriftTest.

Lemma same_port_refl (p : Z) : same_port p p = true.
Proof. unfold same_port. by apply bool_decide_eq_true_2. Qed.

Lemma stop_store_not_running (self : string) (w : World) :
  is_running self (stop_store self w) = false.
Proof.
  unfold is_running, stop_store; simpl. rewrite lookup_alter_eq.
  by destruct (stores w !! self).
Qed.

(** A store that runs and configures the area answers every write with a
    value, accepted or not: a rejected record is no error. *)
Lemma setKey_on_usable_store (self : string) (w : World) (area : AreaId)
    (key : string) (v : Value) (nodeIds : option (list string)) (s : Store) :
  usable w self area = Some s →
  returned (setKey (kvStoreApi := api self) w area key v nodeIds) = true.
Proof.
  intros Hus. unfold setKey; simpl. unfold setKvStoreKeyVals. rewrite Hus.
  unfold usable in Hus. destruct (stores w !! self) as [s0|]; [| discriminate].
  destruct (running s0 && bool_decide (is_Some (areas s0 !! area))) eqn:Hok;
    [| discriminate].
  injection Hus as ->.
  apply andb_true_iff in Hok as [_ Harea].
  apply bool_decide_eq_true_1 in Harea as [db Hdb].
  unfold commit. rewrite Hdb. cbn [set_keyVals set_nodeIds].
  destruct (AreaDb.mergeKeyValues (db_keyVals db) (emplace key v ∅)) as [kvs' acc].
  by destruct (decide (acc = ∅)).
Qed.

(** On such a store getKey returns the record the area holds for the
    key, and none when it holds no record for it. *)
Lemma getKey_stored_record (self : string) (w : World) (area : AreaId)
    (key : string) (s : Store) :
  usable w self area = Some s →
  returned (getKey (kvStoreApi := api self) w area key) = records self area w !! key.
Proof.
  intros Hus. unfold getKey; simpl. unfold getKvStoreKeyVals. rewrite Hus. simpl.
  unfold usable in Hus. unfold records.
  destruct (stores w !! self) as [s0|]; [| discriminate]. simpl.
  destruct (running s0 && bool_decide (is_Some (areas s0 !! area))); [| discriminate].
  injection Hus as <-.
  rewrite map_lookup_filter. destruct (default ∅ (db_keyVals <$> areas s0 !! area) !! key)
    as [v|] eqn:Hv; simpl; [| reflexivity].
  rewrite option_guard_True; [reflexivity | set_solver].
Qed.

(** Adding a peer that runs, listens where its spec says and configures
    the area starts a session that reaches it: the call returns true and
    the world is the one the exchange leaves. *)
Lemma addPeer_reaches (self peerName : string) (area : AreaId) (w : World)
    (s p : Store) (db pdb : KvStoreDb) :
  stores w !! self = Some s → node_name s = self → running s = true →
  areas s !! area = Some db →
  self ≠ peerName →
  stores w !! peerName = Some p → running p = true →
  areas p !! area = Some pdb →
  let entry := {| peerAddr := thrift_addr p; ctrlPort := thrift_port p;
                  peer_state := SYNCING |} in
  let s1 := update_peers area (fun ps => <[peerName := entry]> (delete peerName ps)) s in
  let mine := mkKvStoreDb (db_keyVals db)
                          (<[peerName := entry]> (delete peerName (db_peers db))) in
  addPeer (kvStoreApi := api self) w area peerName (getPeerSpec p) =
  mkResult true
    (sync_exchange s1 mine area peerName p pdb
       (bump "kvstore.thrift.num_full_sync.count" (set_store s1 w)))
    [].
Proof.
  intros Hs Hname Hrun Hdb Hne Hp Hprun Hpdb entry s1 mine.
  unfold addPeer, addPeers; simpl. unfold addUpdateKvStorePeers, usable.
  rewrite Hs, Hrun, Hdb. simpl.
  rewrite map_to_list_singleton. simpl.
  unfold add_peer. rewrite Hs. simpl. rewrite lookup_alter_eq, Hdb. simpl.
  fold entry. fold s1. fold mine.
  unfold full_sync, reach. simpl.
  rewrite Hname, lookup_insert_ne, Hp, Hprun by done. simpl.
  rewrite bool_decide_eq_true_2 by done. rewrite same_port_refl. simpl.
  by rewrite Hpdb.
Qed.

(** C1, as stated, fails: store node-1 holds key1 at version 5; a write
    of key1 at version 1 does not dominate and is rejected, the store is
    as before and holds no new publication, and setKey returns true. *)
Lemma setKey_true_for_rejected_record :
  let w0 := createKvStore node1 1001 empty_world in
  let stored := createThriftValue 5 node1 value1 in
  let incoming := createThriftValue 1 node1 value2 in
  let w1 := store_after (setKey (kvStoreApi := api node1) w0 kTestingAreaName
                                k1 stored None) in
  let r := setKey (kvStoreApi := api node1) w1 kTestingAreaName k1 incoming None in
  records node1 kTestingAreaName w1 !! k1 = Some stored
  ∧ AreaDb.accepts (records node1 kTestingAreaName w1 !! k1) incoming = false
  ∧ store_after r = w1
  ∧ returned r = true
  ∧ ¬ (returned r = true
       ↔ AreaDb.accepts (records node1 kTestingAreaName w1 !! k1) incoming = true).
Proof.
  repeat apply conj; try (vm_compute; reflexivity).
  vm_compute. intros [Hacc _]. specialize (Hacc eq_refl). discriminate Hacc.
Qed.

Lemma stop_idempotent_witness :
  let stop := stop (kvStoreApi := api node1) in
  isRunning (KvStoreApi := api node1) (wrapped_kvStore running_wrapper) = true
  ∧ kvStoreUpdatesQueue_closed (stop running_wrapper).1 = true
  ∧ stop (stop running_wrapper).1 = ((stop running_wrapper).1, [stopped_log]).
Proof.
  intros stop'.
  pose proof (stop_idempotent (kvStoreApi := api node1)
                (stop_store_not_running node1) running_wrapper) as (_ & Hrun & Htwice).
  split; [reflexivity |]. split; [| exact Htwice].
  exact (proj1 (Hrun eq_refl)).
Defined.

(** A peer spec with a port nobody listens at, as in the test
    FullSyncWithException: addPeer still returns true, the session fails,
    the entry is back in IDLE, and no record moves. *)
Example unreachable_peer_stays_idle :
  let w := world (inject_keys (two_stores 1001 1002)) in
  let spec := {| peerAddr := kPlatformHost; ctrlPort := 9; peer_state := IDLE |} in
  let r := addPeer (kvStoreApi := api node1) w kTestingAreaName node2 spec in
  returned r = true
  ∧ getPeerState (kvStoreApi := api node1) (store_after r) kTestingAreaName node2
    = Some IDLE
  ∧ records node1 kTestingAreaName (store_after r) = records node1 kTestingAreaName w
  ∧ records node2 kTestingAreaName (store_after r) = records node2 kTestingAreaName w
  ∧ counter_at "kvstore.thrift.num_full_sync.count" (store_after r) = 1
  ∧ counter_at "kvstore.thrift.num_full_sync_failure.count" (store_after r) = 1
  ∧ counter_at "kvstore.thrift.num_full_sync_success.count" (store_after r) = 0.
Proof. repeat apply conj; vm_compute; reflexivity. Qed.

(** *** The test of the three-way sync *)

(** What the test leaves behind, for any ports the two servers get: the
    records of both stores, the size of both dumps, the outcome of the
    EXPECTs, the outboxes and the counters. *)
Lemma UnidirectionThriftFullSync_facts (port1 port2 : Z) :
  let r := UnidirectionThriftFullSync port1 port2 in
  records node1 kTestingAreaName (world r) = expected_records
  ∧ records node2 kTestingAreaName (world r) = expected_records
  ∧ dump_size node1 (world r) = Some 5%nat
  ∧ dump_size node2 (world r) = Some 5%nat
  ∧ forallb id (expects r) = true
  ∧ quiescent (world r) = true
  ∧ counter_at "kvstore.thrift.num_full_sync.count" (world r) = 1
  ∧ counter_at "kvstore.thrift.num_full_sync_success.count" (world r) = 1
  ∧ counter_at "kvstore.thrift.num_full_sync_failure.count" (world r) = 0
  ∧ counter_at "kvstore.thrift.num_finalized_sync.count" (world r) = 1
  ∧ counter_at "kvstore.thrift.num_finalized_sync_success.count" (world r) = 1
  ∧ counter_at "kvstore.thrift.num_finalized_sync_failure.count" (world r) = 0.
Proof.
  unfold UnidirectionThriftFullSync, inject_and_peer, add_one_way_peer.
  set (r := inject_keys (two_stores port1 port2)).
  assert (Hp : stores (world r) !! node2 = Some (store_of node2 (world r)))
    by (vm_compute; reflexivity).
  rewrite Hp; clear Hp.
  rewrite (addPeer_reaches node1 (node_name (store_of node2 (world r)))
             kTestingAreaName (world r)
             (store_of node1 (world r)) (store_of node2 (world r))
             (db_of kTestingAreaName (store_of node1 (world r)))
             (db_of kTestingAreaName (store_of node2 (world r)))
             ltac:(vm_compute; reflexivity) ltac:(vm_compute; reflexivity)
             ltac:(vm_compute; reflexivity) ltac:(vm_compute; reflexivity)
             ltac:(vm_compute; discriminate) ltac:(vm_compute; reflexivity)
             ltac:(vm_compute; reflexivity) ltac:(vm_compute; reflexivity)).
  repeat apply conj; vm_compute; reflexivity.
Qed.

(** C2: the one-way three-way sync.  Store A holds k0 at version 5, k1
    at 1, k2 at 9 and k3 at 1; store B holds k1 at 1, k2 at 1, k3 at 9
    and k4 at 6; A adds B as its peer.  When the exchange is over and no
    flood is waiting, both stores hold the same five records, for every
    key the one of the larger version (k0 at 5, k1 at 1, k2 at 9, k3 at
    9, k4 at 6), and the dump of either store has five keys. *)
Theorem UnidirectionThriftFullSync_converges (port1 port2 : Z) :
  let r := UnidirectionThriftFullSync port1 port2 in
  records node1 kTestingAreaName (world r) = expected_records
  ∧ records node2 kTestingAreaName (world r) = expected_records
  ∧ dump_size node1 (world r) = Some 5%nat
  ∧ dump_size node2 (world r) = Some 5%nat
  ∧ quiescent (world r) = true
  ∧ forallb id (expects r) = true.
Proof.
  intros r.
  destruct (UnidirectionThriftFullSync_facts port1 port2)
    as (H1 & H2 & H3 & H4 & H5 & H6 & _).
  repeat split; assumption.
Qed.


End OnTheStore.

(** * Further properties *)

(** ** The reader of the updates queue, case by case *)

Lemma publications_app (l1 l2 : list KvStorePublication) :
  publications (l1 ++ l2) = publications l1 ++ publications l2.
Proof.
  induction l1 as [|[pub|event] l1 IH]; simpl; [reflexivity | by rewrite IH | exact IH].
Qed.

Lemma initialization_events_app (l1 l2 : list KvStorePublication) :
  initialization_events (l1 ++ l2) = initialization_events l1 ++ initialization_events l2.
Proof.
  induction l1 as [|[pub|event] l1 IH]; simpl; [reflexivity | exact IH | by rewrite IH].
Qed.

(** A queue splits at its first publication, when it has one. *)
Lemma first_publication (items : list KvStorePublication) :
  match publications items with
  | [] => ∃ events, items = map InitializationEventItem events
  | pub :: pubs =>
      ∃ events post,
        items = map InitializationEventItem events ++ PublicationItem pub :: post
        ∧ publications post = pubs
  end.
Proof.
  induction items as [|[pub|event] items IH]; simpl.
  - by exists [].
  - by exists [], items.
  - destruct (publications items) as [|pub pubs].
    + destruct IH as [events ->]. by exists (event :: events).
    + destruct IH as (events & post & -> & Hpost). by exists (event :: events), post.
Qed.

Lemma first_initialization_event (items : list KvStorePublication) :
  match initialization_events items with
  | [] => ∃ pubs, items = map PublicationItem pubs
  | event :: events =>
      ∃ pubs post,
        items = map PublicationItem pubs ++ InitializationEventItem event :: post
        ∧ initialization_events post = events
  end.
Proof.
  induction items as [|[pub|event] items IH]; simpl.
  - by exists [].
  - destruct (initialization_events items) as [|ev events].
    + destruct IH as [pubs ->]. by exists (pub :: pubs).
    + destruct IH as (pubs & post & -> & Hpost). by exists (pub :: pubs), post.
  - by exists [], items.
Qed.

(** What recvPublication comes to is decided by the publications of the
    queue and by its end alone. *)
Lemma recvPublication_by_publications (q : RQueue) :
  match publications (pending q) with
  | pub :: pubs =>
      ∃ rest, recvPublication q = Returned pub rest
              ∧ publications (pending rest) = pubs ∧ ending rest = ending q
              ∧ ∃ skipped, pending q = skipped ++ PublicationItem pub :: pending rest
  | [] =>
      recvPublication q = match ending q with
                          | Closed => Thrown "recvPublication failed"
                          | StaysOpen => Blocked
                          end
  end.
Proof.
  destruct q as [items e]. simpl.
  pose proof (first_publication items) as Hfirst.
  destruct (publications items) as [|pub pubs].
  - destruct Hfirst as [events ->]. unfold recvPublication; simpl.
    rewrite <- (app_nil_r (map _ events)), recvPublication_loop_skip. reflexivity.
  - destruct Hfirst as (events & post & -> & Hpost).
    exists {| pending := post; ending := e |}. unfold recvPublication; simpl.
    rewrite recvPublication_loop_skip. simpl. repeat split; try done. by eexists.
Qed.

(** X1: the outcomes of recvPublication, each with the queues that lead
    to it.  The call returns a publication exactly when the queue holds
    one, and then the first; it throws exactly when the queue holds none
    and is closed; it waits for ever exactly when the queue holds none and
    stays open; it never ends the process. *)
Theorem recvPublication_cases (q : RQueue) (pub : Publication) (rest : RQueue) :
  (recvPublication q = Returned pub rest
   ↔ ∃ events,
       pending q = map InitializationEventItem events
                   ++ PublicationItem pub :: pending rest
       ∧ ending rest = ending q)
  ∧ (recvPublication q = Thrown "recvPublication failed"
     ↔ publications (pending q) = [] ∧ ending q = Closed)
  ∧ (recvPublication q = Blocked
     ↔ publications (pending q) = [] ∧ ending q = StaysOpen)
  ∧ recvPublication q ≠ Aborted
  ∧ (∀ what, recvPublication q = Thrown what → what = "recvPublication failed").
Proof.
  pose proof (recvPublication_by_publications q) as Hq.
  destruct (publications (pending q)) as [|p pubs] eqn:Hpubs.
  - rewrite Hq. repeat split.
    + destruct (ending q); discriminate.
    + intros (events & Hpending & _). rewrite Hpending, publications_app in Hpubs.
      simpl in Hpubs. by destruct (publications (map _ events)).
    + by destruct (ending q).
    + intros [_ ->]. reflexivity.
    + by destruct (ending q).
    + intros [_ ->]. reflexivity.
    + destruct (ending q); discriminate.
    + intros what. destruct (ending q); intros Hw; by inversion Hw.
  - destruct Hq as (rest0 & Hret & _ & Hend & _). rewrite Hret. repeat split;
      try discriminate; try (intros [Hnil _]; discriminate Hnil).
    + intros Heq. injection Heq as -> ->.
      destruct q as [items e]. unfold recvPublication in Hret. simpl in *.
      clear Hpubs. induction items as [|[p0|event] items IH]; simpl in Hret.
      * destruct e; discriminate.
      * injection Hret as -> <-. by exists [].
      * destruct (IH Hret) as (events & -> & _). by exists (event :: events).
    + intros (events & Hpending & Hend'). unfold recvPublication in *.
      rewrite Hpending, recvPublication_loop_skip in Hret. simpl in Hret.
      injection Hret as -> <-. f_equal. destruct rest as [r e']. simpl in *. by subst.
Qed.

(** X2: the outcomes of recvKvStoreSyncedSignal are decided by the first
    initialization event of the queue alone.  The call returns exactly
    when that event is KVSTORE_SYNCED, ends the process exactly when it is
    another event (whatever follows it, and whether or not the queue is
    closed later), and throws or waits for ever exactly when the queue
    holds no initialization event. *)
Theorem recvKvStoreSyncedSignal_cases (q : RQueue) :
  match initialization_events (pending q) with
  | event :: _ =>
      if decide (event = KVSTORE_SYNCED)
      then ∃ rest pubs,
             recvKvStoreSyncedSignal q = Returned tt rest
             ∧ pending q = map PublicationItem pubs
                           ++ InitializationEventItem KVSTORE_SYNCED :: pending rest
             ∧ ending rest = ending q
      else recvKvStoreSyncedSignal q = Aborted
  | [] =>
      recvKvStoreSyncedSignal q = match ending q with
                                  | Closed => Thrown "recvPublication failed"
                                  | StaysOpen => Blocked
                                  end
  end.
Proof.
  destruct q as [items e]. simpl.
  pose proof (first_initialization_event items) as Hfirst.
  destruct (initialization_events items) as [|event events].
  - destruct Hfirst as [pubs ->]. unfold recvKvStoreSyncedSignal; simpl.
    rewrite <- (app_nil_r (map _ pubs)), recvKvStoreSyncedSignal_loop_skip. reflexivity.
  - destruct Hfirst as (pubs & post & -> & _).
    unfold recvKvStoreSyncedSignal; simpl.
    rewrite recvKvStoreSyncedSignal_loop_skip. simpl.
    destruct (decide (event = KVSTORE_SYNCED)) as [->|Hne]; [| reflexivity].
    by exists {| pending := post; ending := e |}, pubs.
Qed.

(** ** Calls in a row *)

Lemma recvPublication_times_take (n : nat) (q : RQueue) :
  (n ≤ length (publications (pending q)))%nat →
  ∃ rest,
    recvPublication_times n q = Returned (take n (publications (pending q))) rest
    ∧ publications (pending rest) = drop n (publications (pending q))
    ∧ ending rest = ending q.
Proof.
  revert q. induction n as [|n IH]; intros q Hn; simpl.
  - exists q. by rewrite drop_0.
  - pose proof (recvPublication_by_publications q) as Hq.
    destruct (publications (pending q)) as [|pub pubs]; simpl in Hn; [lia |].
    destruct Hq as (rest & -> & Hpubs & Hend & _).
    destruct (IH rest) as (rest' & -> & Hdrop & Hend'); [rewrite Hpubs; lia |].
    exists rest'. simpl. rewrite Hpubs in *. repeat split; congruence.
Qed.

(** More calls than the queue holds publications come to the end of the
    queue. *)
Lemma recvPublication_times_beyond (n : nat) (q : RQueue) :
  (length (publications (pending q)) < n)%nat →
  recvPublication_times n q = match ending q with
                              | Closed => Thrown "recvPublication failed"
                              | StaysOpen => Blocked
                              end.
Proof.
  revert q. induction n as [|n IH]; intros q Hn; [lia |].
  simpl. pose proof (recvPublication_by_publications q) as Hq.
  destruct (publications (pending q)) as [|pub pubs] eqn:Hpubs.
  - rewrite Hq. by destruct (ending q).
  - destruct Hq as (rest & -> & Hrest & Hend & _).
    rewrite (IH rest), Hend; [by destruct (ending q) |].
    rewrite Hrest. simpl in Hn. lia.
Qed.

(** X3: recvPublication delivers in the order of the queue.  As many
    calls in a row as the queue holds publications, or fewer, return the
    first publications of the queue in their order, whatever
    initialization events lie between them; one call more than the queue
    holds publications throws on a closed queue and waits for ever on one
    that stays open. *)
Theorem recvPublication_times_fifo (n : nat) (q : RQueue) :
  let pubs := publications (pending q) in
  ((n ≤ length pubs)%nat →
   ∃ rest, recvPublication_times n q = Returned (take n pubs) rest
           ∧ publications (pending rest) = drop n pubs)
  ∧ ((length pubs < n)%nat →
     recvPublication_times n q = match ending q with
                                 | Closed => Thrown "recvPublication failed"
                                 | StaysOpen => Blocked
                                 end).
Proof.
  intros pubs. split.
  - intros Hn. destruct (recvPublication_times_take n q Hn) as (rest & H1 & H2 & _).
    by exists rest.
  - apply recvPublication_times_beyond.
Qed.

Lemma recvPublication_times_fifo_witness :
  let q := {| pending := [InitializationEventItem KVSTORE_SYNCED;
                          PublicationItem Publication_default];
              ending := Closed |} in
  (∃ rest, recvPublication_times 1 q = Returned [Publication_default] rest
           ∧ publications (pending rest) = [])
  ∧ recvPublication_times 2 q = Thrown "recvPublication failed".
Proof.
  intros q. split.
  - apply (proj1 (recvPublication_times_fifo 1 q)). simpl. lia.
  - apply (proj2 (recvPublication_times_fifo 2 q)). simpl. lia.
Defined.

(** X4: what pushToKvStoreUpdatesQueue pushes comes back from
    recvPublication while the queue is open, and is lost once the queue
    is closed.  On an open queue that holds [n] publications, call
    [n + 1] returns the pushed publication: it carries the area and the
    key-values that were pushed, no expired keys and no node ids; the
    calls before it return the publications that were in the queue, and
    nothing is left for a call after it.  On a closed queue the push
    changes nothing, and call [n + 1] throws as it does without the
    push. *)
Theorem pushToKvStoreUpdatesQueue_recvPublication (area : AreaId) (keyVals : KeyVals)
    (q : RQueue) :
  let pushed :=
    {| pub_area := area; pub_keyVals := keyVals; pub_expiredKeys := [];
       pub_nodeIds := None |} in
  let n := length (publications (pending q)) in
  let q' := pushToKvStoreUpdatesQueue area keyVals q in
  match ending q with
  | StaysOpen =>
      recvPublication_times (S n) q = Blocked
      ∧ ∃ rest,
          recvPublication_times (S n) q'
          = Returned (publications (pending q) ++ [pushed]) rest
          ∧ publications (pending rest) = []
          ∧ ending rest = StaysOpen
  | Closed =>
      q' = q
      ∧ recvPublication_times (S n) q' = Thrown "recvPublication failed"
  end.
Proof.
  intros pushed n q'.
  destruct (ending q) eqn:He.
  - assert (Hq' : q' = q).
    { unfold q', pushToKvStoreUpdatesQueue, push. by rewrite He. }
    rewrite Hq'. split; [reflexivity |].
    rewrite recvPublication_times_beyond, He; [reflexivity | unfold n; lia].
  - split.
    { rewrite recvPublication_times_beyond, He; [reflexivity | unfold n; lia]. }
    assert (Hpubs : publications (pending q') = publications (pending q) ++ [pushed]).
    { unfold q', pushToKvStoreUpdatesQueue, push. rewrite He. simpl.
      by rewrite publications_app. }
    assert (Hend' : ending q' = StaysOpen).
    { unfold q', pushToKvStoreUpdatesQueue, push. by rewrite He. }
    destruct (recvPublication_times_take (S n) q') as (rest & Hret & Hdrop & Hend).
    { rewrite Hpubs, length_app. simpl. unfold n. lia. }
    exists rest. rewrite Hret, Hdrop, Hpubs. repeat split.
    + f_equal. apply take_ge. rewrite length_app. simpl. unfold n. lia.
    + apply drop_ge. rewrite length_app. simpl. unfold n. lia.
    + by rewrite Hend.
Qed.

(** ** Writes through the wrapper *)

Section WriteCalls.
Context {S : Type} {kvStoreApi : KvStoreApi S}.

Lemma find_append {A} (f : A → bool) (l1 l2 : list A) :
  List.find f (l1 ++ l2) =
  match List.find f l1 with
  | Some x => Some x
  | None => List.find f l2
  end.
Proof.
  induction l1 as [|x l1 IH]; simpl; [reflexivity |]. by destruct (f x).
Qed.

(** X5: in a batch given to setKeys the first entry of a key wins.  A
    later entry for a key the batch already holds is dropped before the
    call: the batch with it and the batch without it make the same call
    and give the same result. *)
Theorem setKeys_first_entry_wins (kvStore_ : S) (area : AreaId)
    (before between after : list (string * Value)) (key : string) (v later : Value)
    (nodeIds : option (list string)) :
  setKeys kvStore_ area (before ++ (key, v) :: between ++ (key, later) :: after) nodeIds
  = setKeys kvStore_ area (before ++ (key, v) :: between ++ after) nodeIds.
Proof.
  unfold setKeys.
  replace (fold_left (fun m kv => emplace kv.1 kv.2 m)
             (before ++ (key, v) :: between ++ (key, later) :: after) ∅)
    with (fold_left (fun m kv => emplace kv.1 kv.2 m)
             (before ++ (key, v) :: between ++ after) ∅); [reflexivity |].
  apply map_eq. intros k. rewrite !setKeys_params_lookup, lookup_empty.
  f_equal. rewrite !find_append.
  destruct (List.find _ before) as [x|]; [reflexivity |]. simpl.
  destruct (bool_decide (key = k)) eqn:Hk; [reflexivity |].
  rewrite !find_append. destruct (List.find _ between); [reflexivity |]. simpl.
  by rewrite Hk.
Qed.

(** X6: setKeys with a batch of one entry is setKey: the same call on the
    store, the same result, the same log. *)
Theorem setKeys_one_is_setKey (kvStore_ : S) (area : AreaId) (key : string)
    (v : Value) (nodeIds : option (list string)) :
  setKeys kvStore_ area [(key, v)] nodeIds = setKey kvStore_ area key v nodeIds.
Proof. reflexivity. Qed.

(** X7: the calls that write never let an exception of the store reach
    the caller.  When the call on the store throws, setKey, setKeys,
    addPeers and delPeer return false, write one ERR line that ends in the
    text of the exception, and hand on the store as the call left it; when
    it does not throw they return true and write nothing. *)
Theorem write_calls_catch (kvStore_ : S) (area : AreaId) (key : string) (v : Value)
    (keyVals : list (string * Value)) (nodeIds : option (list string))
    (peers : PeersMap) (peerName : string) :
  let caught (text : string) (r : Result S bool) (reply : S * Try unit) :=
    store_after r = reply.1
    ∧ match reply.2 with
      | TryValue _ => returned r = true ∧ logged r = []
      | TryException what =>
          returned r = false ∧ logged r = [mkLogLine ERR (text +:+ what)]
      end in
  caught "Exception to set key in kvstore: " (setKey kvStore_ area key v nodeIds)
    (semifuture_setKvStoreKeyVals kvStore_ area
       {| set_keyVals := {[ key := v ]}; set_nodeIds := nodeIds |})
  ∧ caught "Exception to set key in kvstore: " (setKeys kvStore_ area keyVals nodeIds)
      (semifuture_setKvStoreKeyVals kvStore_ area
         {| set_keyVals := fold_left (fun m kv => emplace kv.1 kv.2 m) keyVals ∅;
            set_nodeIds := nodeIds |})
  ∧ caught "Failed to add peers: " (addPeers kvStore_ area peers)
      (semifuture_addUpdateKvStorePeers kvStore_ area peers)
  ∧ caught "Failed to delete peers: " (delPeer kvStore_ area peerName)
      (semifuture_deleteKvStorePeers kvStore_ area [peerName]).
Proof.
  intros caught. unfold caught, setKey, setKeys, addPeers, delPeer.
  rewrite emplace_empty.
  repeat split;
    match goal with
    | |- context [match ?c with _ => _ end] => destruct c as [s' [[]|what]]
    end; simpl; auto.
Qed.

End WriteCalls.

(** ** Reads through the wrapper *)

Section ReadCallProperties.
Context {S SelfOriginatedKeyVals KvStoreAreaSummary : Type}.
Context {kvStoreApi : KvStoreApi S}.
Context {kvStoreReadApi : KvStoreReadApi S SelfOriginatedKeyVals KvStoreAreaSummary}.





End ReadCallProperties.

(** ** The polling helpers of the fixture *)

Section Polling.
Context {S SelfOriginatedKeyVals KvStoreAreaSummary : Type}.
Context {kvStoreApi : KvStoreApi S}.
Context {kvStoreReadApi : KvStoreReadApi S SelfOriginatedKeyVals KvStoreAreaSummary}.

Lemma verifyKvStoreKeyVal_loop_cases (polls : list (Poll S)) (nodeId key : string)
    (thriftVal : Value) (area : AreaId) (timeout : Z) :
  match (verifyKvStoreKeyVal_loop polls nodeId key thriftVal area timeout).1 with
  | VerifiedTrue =>
      ∃ before elapsed kvStore after,
        polls = before ++ (elapsed, kvStore) :: after
        ∧ Forall (keeps_polling_key area key thriftVal timeout) before
        ∧ elapsed ≤ timeout
        ∧ returned (getKey kvStore area key) = Some thriftVal
  | VerifiedFalse =>
      ∃ before elapsed kvStore after,
        polls = before ++ (elapsed, kvStore) :: after
        ∧ Forall (keeps_polling_key area key thriftVal timeout) before
        ∧ timeout < elapsed
  | VerifyPolls => Forall (keeps_polling_key area key thriftVal timeout) polls
  | VerifyTerminates => False
  end.
Proof.
  induction polls as [|[elapsed kvStore] polls IH]; simpl; [constructor |].
  destruct (Z.ltb_spec timeout elapsed) as [Hlate|Hintime]; simpl.
  - by exists [], elapsed, kvStore, polls.
  - destruct (bool_decide (returned (getKey kvStore area key) = Some thriftVal)) eqn:Hval;
      simpl.
    + apply bool_decide_eq_true_1 in Hval. by exists [], elapsed, kvStore, polls.
    + apply bool_decide_eq_false_1 in Hval.
      destruct (verifyKvStoreKeyVal_loop polls nodeId key thriftVal area timeout)
        as [[] lines]; simpl in *.
      * destruct IH as (before & e & s & after & -> & Hbefore & Hin & Hhit).
        exists ((elapsed, kvStore) :: before), e, s, after.
        repeat split; try done. by constructor.
      * destruct IH as (before & e & s & after & -> & Hbefore & Hlate).
        exists ((elapsed, kvStore) :: before), e, s, after.
        repeat split; try done. by constructor.
      * done.
      * by constructor.
Qed.

(** X10: verifyKvStoreKeyVal returns true only for a value getKey gave
    it, in time.  It returns true exactly when some round finds the clock
    within the timeout and getKey equal to the expected record, all
    rounds before it being in time without that record.  A round whose
    clock is past the timeout returns false without reading the key, so
    a record that arrives late is not seen; and without a timeout
    (an empty optional) the first round ends the process. *)
Theorem verifyKvStoreKeyVal_true_iff (polls : list (Poll S)) (nodeId key : string)
    (thriftVal : Value) (area : AreaId) (timeout : Z) :
  ((verifyKvStoreKeyVal polls nodeId key thriftVal area (Some timeout)).1 = VerifiedTrue
   ↔ ∃ before elapsed kvStore after,
       polls = before ++ (elapsed, kvStore) :: after
       ∧ Forall (keeps_polling_key area key thriftVal timeout) before
       ∧ elapsed ≤ timeout
       ∧ returned (getKey kvStore area key) = Some thriftVal)
  ∧ (∀ elapsed kvStore after,
       timeout < elapsed →
       verifyKvStoreKeyVal ((elapsed, kvStore) :: after) nodeId key thriftVal area
                           (Some timeout)
       = (VerifiedFalse,
          [mkLogLine ERR ("Timeout verifying key: " +:+ key
                          +:+ " inside KvStore: " +:+ nodeId)]))
  ∧ (verifyKvStoreKeyVal polls nodeId key thriftVal area None).1 = VerifyTerminates.
Proof.
  split; [| split; [| reflexivity]].
  - simpl. split.
    + intros Htrue.
      pose proof (verifyKvStoreKeyVal_loop_cases polls nodeId key thriftVal area timeout)
        as Hcases. by rewrite Htrue in Hcases.
    + intros (before & elapsed & kvStore & after & -> & Hbefore & Hin & Hhit).
      induction Hbefore as [|[e s] before [He Hs] _ IH]; simpl.
      * destruct (Z.ltb_spec timeout elapsed); [lia |].
        by rewrite bool_decide_eq_true_2.
      * simpl in He, Hs. destruct (Z.ltb_spec timeout e); [lia |].
        rewrite bool_decide_eq_false_2 by done.
        destruct (verifyKvStoreKeyVal_loop _ nodeId key thriftVal area timeout).
        simpl in *. exact IH.
  - intros elapsed kvStore after Hlate. simpl.
    destruct (Z.ltb_spec timeout elapsed); [reflexivity | lia].
Qed.

Lemma verifyKvStorePeerState_loop_cases (polls : list (Poll S)) (peerName : string)
    (expPeerState : KvStorePeerState) (area : AreaId) (timeout : Z) :
  match (verifyKvStorePeerState_loop polls peerName expPeerState area timeout).1 with
  | VerifiedTrue =>
      ∃ before elapsed kvStore after,
        polls = before ++ (elapsed, kvStore) :: after
        ∧ Forall (keeps_polling_state area peerName expPeerState timeout) before
        ∧ elapsed ≤ timeout
        ∧ getPeerState kvStore area peerName = Some expPeerState
  | VerifiedFalse =>
      ∃ before elapsed kvStore after,
        polls = before ++ (elapsed, kvStore) :: after
        ∧ Forall (keeps_polling_state area peerName expPeerState timeout) before
        ∧ timeout < elapsed
  | VerifyPolls => Forall (keeps_polling_state area peerName expPeerState timeout) polls
  | VerifyTerminates => False
  end.
Proof.
  induction polls as [|[elapsed kvStore] polls IH]; simpl; [constructor |].
  destruct (Z.ltb_spec timeout elapsed) as [Hlate|Hintime]; simpl.
  - by exists [], elapsed, kvStore, polls.
  - destruct (bool_decide (getPeerState kvStore area peerName = Some expPeerState))
      eqn:Hval; simpl.
    + apply bool_decide_eq_true_1 in Hval. by exists [], elapsed, kvStore, polls.
    + apply bool_decide_eq_false_1 in Hval.
      destruct (verifyKvStorePeerState_loop polls peerName expPeerState area timeout)
        as [[] lines]; simpl in *.
      * destruct IH as (before & e & s & after & -> & Hbefore & Hin & Hhit).
        exists ((elapsed, kvStore) :: before), e, s, after.
        repeat split; try done. by constructor.
      * destruct IH as (before & e & s & after & -> & Hbefore & Hlate).
        exists ((elapsed, kvStore) :: before), e, s, after.
        repeat split; try done. by constructor.
      * done.
      * by constructor.
Qed.

(** X11: verifyKvStorePeerState returns false exactly when a round finds
    the clock past the timeout while no round before it saw the peer in
    the expected state; it then writes the one line that names the state
    and the peer.  A peer that the store does not know never verifies:
    while getPeerState gives none, the result is not true. *)
Theorem verifyKvStorePeerState_false_iff (polls : list (Poll S)) (peerName : string)
    (expPeerState : KvStorePeerState) (area : AreaId) (timeout : Z) :
  let r := verifyKvStorePeerState polls peerName expPeerState area (Some timeout) in
  (r.1 = VerifiedFalse
   ↔ ∃ before elapsed kvStore after,
       polls = before ++ (elapsed, kvStore) :: after
       ∧ Forall (keeps_polling_state area peerName expPeerState timeout) before
       ∧ timeout < elapsed)
  ∧ (r.1 = VerifiedFalse →
     r.2 = [mkLogLine ERR ("Timeout verifying state: " +:+ enumNameSafe expPeerState
                           +:+ " against peer: " +:+ peerName)])
  ∧ (Forall (fun poll => getPeerState poll.2 area peerName = None) polls →
     r.1 ≠ VerifiedTrue).
Proof.
  intros r. unfold r. simpl. split; [| split].
  - split.
    + intros Hfalse.
      pose proof (verifyKvStorePeerState_loop_cases polls peerName expPeerState area
                    timeout) as Hcases. by rewrite Hfalse in Hcases.
    + intros (before & elapsed & kvStore & after & -> & Hbefore & Hlate).
      induction Hbefore as [|[e s] before [He Hs] _ IH]; simpl.
      * by destruct (Z.ltb_spec timeout elapsed); [| lia].
      * simpl in He, Hs. destruct (Z.ltb_spec timeout e); [lia |].
        by rewrite bool_decide_eq_false_2.
  - induction polls as [|[e s] polls IH]; simpl; [discriminate |].
    destruct (Z.ltb_spec timeout e); [reflexivity |].
    destruct (bool_decide _); [discriminate | exact IH].
  - intros Hnone Htrue.
    pose proof (verifyKvStorePeerState_loop_cases polls peerName expPeerState area
                  timeout) as Hcases.
    rewrite Htrue in Hcases.
    destruct Hcases as (before & elapsed & kvStore & after & -> & _ & _ & Hhit).
    apply Forall_app in Hnone as [_ Hnone]. apply Forall_cons in Hnone as [Hn _].
    simpl in Hn. congruence.
Qed.

End Polling.

(** ** The random port of the fixture *)

(** X12: a port generateRandomDiffPort returns lies between 1 and 65535,
    is not one of the ports given, and comes from the first draw that
    fits; storing it in 16 bits does not change it.  The search fails to
    end only while every draw falls on a port that is given. *)
Theorem generateRandomDiffPort_fresh (draws : list Z) (ports : gset Z) :
  match generateRandomDiffPort draws ports with
  | Some port =>
      (1 ≤ port ≤ 65535) ∧ (port ∉ ports)
      ∧ ∃ taken rand32 rest,
          draws = taken ++ rand32 :: rest
          ∧ port = rand32 `mod` 65535 + 1
          ∧ Forall (fun r => r `mod` 65535 + 1 ∈ ports) taken
  | None => Forall (fun r => r `mod` 65535 + 1 ∈ ports) draws
  end.
Proof.
  assert (Hfit : ∀ r, (r `mod` 65535 + 1) `mod` 2 ^ 16 = r `mod` 65535 + 1).
  { intros r. apply Z.mod_small. pose proof (Z.mod_pos_bound r 65535). lia. }
  induction draws as [|r draws IH]; simpl; [constructor |].
  rewrite Hfit.
  destruct (bool_decide (r `mod` 65535 + 1 ∈ ports)) eqn:Hin.
  - apply bool_decide_eq_true_1 in Hin.
    destruct (generateRandomDiffPort draws ports) as [port|].
    + destruct IH as (Hrange & Hfresh & taken & r' & rest & -> & Hport & Htaken).
      split; [exact Hrange |]. split; [exact Hfresh |].
      exists (r :: taken), r', rest. split; [reflexivity |].
      split; [exact Hport |]. by constructor.
    + by constructor.
  - apply bool_decide_eq_false_1 in Hin.
    pose proof (Z.mod_pos_bound r 65535). split; [lia |]. split; [exact Hin |].
    by exists [], r, draws.
Qed.

(** ** run and stop *)

Section LifecycleProperties.
Context {S SelfOriginatedKeyVals KvStoreAreaSummary : Type}.
Context {kvStoreApi : KvStoreApi S}.
Context {kvStoreReadApi : KvStoreReadApi S SelfOriginatedKeyVals KvStoreAreaSummary}.

(** X13: the life of a wrapper.  A constructed wrapper can be run; a
    second run without a stop ends the process, as the thread of the
    first is still joinable.  After a stop the store does not run, the
    thrift server is stopped, the thread is joined and all four queues
    are closed.  The wrapper can then be run again, and the store and the
    server run again, but run opens no queue: all four stay closed.  The
    store is taken to run after its start and not to run after its
    stop. *)
Theorem run_stop_run (kvStore_ : S)
    (Hrun : isRunning (kvStore_run kvStore_) = true)
    (Hstop : isRunning (kvStore_stop (kvStore_run kvStore_)) = false)
    (Hagain : isRunning (kvStore_run (kvStore_stop (kvStore_run kvStore_))) = true) :
  ∃ started again,
    run (constructed kvStore_) = Some started
    ∧ all_queues_closed (lc_wrapper started) = false
    ∧ run started = None
    ∧ let stopped := (stop_lifecycle started).1 in
      isRunning (wrapped_kvStore (lc_wrapper stopped)) = false
      ∧ thriftServer_running (lc_wrapper stopped) = false
      ∧ kvStoreThread_joined (lc_wrapper stopped) = true
      ∧ all_queues_closed (lc_wrapper stopped) = true
      ∧ run stopped = Some again
      ∧ isRunning (wrapped_kvStore (lc_wrapper again)) = true
      ∧ thriftServer_running (lc_wrapper again) = true
      ∧ all_queues_closed (lc_wrapper again) = true
      ∧ run again = None.
Proof.
  eexists. eexists. split; [reflexivity |]. split; [reflexivity |].
  split; [reflexivity |].
  unfold stop_lifecycle, stop. simpl. rewrite Hrun. simpl.
  rewrite Hstop. repeat split; try reflexivity. exact Hagain.
Qed.

End LifecycleProperties.

(** ** The wrapper on the modelled store, for any world *)

Section OnAnyWorld.
Import KvStore KvStoreReads.

Lemma lookup_world_view (w w' : World) (name : string) :
  world_view w = world_view w' →
  match stores w !! name, stores w' !! name with
  | Some s, Some s' => store_view s = store_view s'
  | None, None => True
  | _, _ => False
  end.
Proof.
  intros Hview. assert (Hn : world_view w !! name = world_view w' !! name) by congruence.
  unfold world_view in Hn. rewrite !lookup_fmap in Hn.
  destruct (stores w !! name), (stores w' !! name); try done.
  cbn [fmap option_fmap option_map] in Hn. by apply (inj Some).
Qed.

Lemma usable_by_view (w w' : World) (self : string) (area : AreaId) :
  world_view w = world_view w' →
  match usable w self area, usable w' self area with
  | Some s, Some s' => store_view s = store_view s'
  | None, None => True
  | _, _ => False
  end.
Proof.
  intros Hview. pose proof (lookup_world_view w w' self Hview) as Hs. unfold usable.
  destruct (stores w !! self) as [s|], (stores w' !! self) as [s'|]; try done.
  pose proof Hs as Hs'. unfold store_view in Hs'.
  injection Hs' as _ _ _ Hr Hareas. rewrite Hr.
  assert (Harea : db_keyVals <$> areas s !! area = db_keyVals <$> areas s' !! area).
  { by rewrite <- !lookup_fmap, Hareas. }
  destruct (areas s !! area) as [d|], (areas s' !! area) as [d'|];
    try discriminate Harea.
  - rewrite !bool_decide_eq_true_2 by eauto. by destruct (running s').
  - rewrite !bool_decide_eq_false_2 by (by intros [? ?]). by rewrite andb_false_r.
Qed.

Lemma view_records (s s' : Store) (area : AreaId) :
  store_view s = store_view s' →
  db_keyVals <$> areas s !! area = db_keyVals <$> areas s' !! area.
Proof.
  unfold store_view. intros Hv. injection Hv as _ _ _ _ Hareas.
  by rewrite <- !lookup_fmap, Hareas.
Qed.

(** What getKey and dumpAll return is read off the view. *)
Lemma getKey_by_view (w w' : World) (self : string) (area : AreaId) (key : string) :
  world_view w = world_view w' →
  returned (getKey (kvStoreApi := api self) w area key)
  = returned (getKey (kvStoreApi := api self) w' area key).
Proof.
  intros Hview. pose proof (usable_by_view w w' self area Hview) as Hus.
  unfold getKey; simpl. unfold getKvStoreKeyVals.
  destruct (usable w self area) as [s|], (usable w' self area) as [s'|]; try done.
  simpl. by rewrite (view_records s s' area Hus).
Qed.

Lemma dumpAll_by_view (w w' : World) (self : string) (area : AreaId)
    (filters : option KvStoreFilters) :
  world_view w = world_view w' →
  dumpAll (kvStoreApi := api self) self w area filters
  = dumpAll (kvStoreApi := api self) self w' area filters.
Proof.
  intros Hview. pose proof (usable_by_view w w' self area Hview) as Hus.
  unfold dumpAll; simpl. unfold dumpKvStoreKeys; simpl. unfold dump_area.
  destruct (usable w self area) as [s|], (usable w' self area) as [s'|]; try done.
  simpl. by rewrite (view_records s s' area Hus).
Qed.

Lemma update_peers_view (area : AreaId) (f : PeersMap → PeersMap) (s : Store) :
  store_view (update_peers area f s) = store_view s.
Proof.
  unfold store_view, update_peers; simpl. f_equal.
  apply map_eq. intros a. rewrite !lookup_fmap.
  destruct (decide (area = a)) as [->|Hne].
  - rewrite lookup_alter_eq. by destruct (areas s !! a).
  - by rewrite lookup_alter_ne.
Qed.

Lemma set_store_same_view (s s' : Store) (w : World) :
  stores w !! node_name s = Some s → store_view s' = store_view s →
  world_view (set_store s' w) = world_view w.
Proof.
  intros Hs Hview. unfold world_view, set_store; simpl.
  assert (Hname : node_name s' = node_name s).
  { unfold store_view in Hview. by injection Hview. }
  rewrite Hname, fmap_insert, Hview. apply insert_id. by rewrite lookup_fmap, Hs.
Qed.

Lemma well_named_set_store (s : Store) (w : World) :
  well_named w → well_named (set_store s w).
Proof.
  intros Hw name s0. unfold set_store; simpl.
  destruct (decide (node_name s = name)) as [<-|Hne].
  - rewrite lookup_insert_eq. by intros [= <-].
  - rewrite lookup_insert_ne by done. apply Hw.
Qed.

(** A peer whose spec names a port at which the peer does not listen is
    not reached: the world shows the same records as before. *)
Lemma add_peer_wrong_port (self : string) (area : AreaId) (w : World)
    (peerName : string) (spec : PeerSpec) :
  well_named w →
  (∀ p, stores w !! peerName = Some p → thrift_port p ≠ ctrlPort spec) →
  world_view (add_peer self area w peerName spec) = world_view w
  ∧ well_named (add_peer self area w peerName spec).
Proof.
  intros Hw Hport. unfold add_peer.
  destruct (stores w !! self) as [s|] eqn:Hs; [| done].
  set (entry := transition PEER_ADD _).
  set (s1 := update_peers area _ s).
  destruct (areas s1 !! area) as [mine|]; [| done].
  pose proof (Hw _ _ Hs) as Hname.
  assert (Hv1 : world_view (set_store s1 w) = world_view w).
  { apply (set_store_same_view s); [by rewrite Hname | apply update_peers_view]. }
  unfold full_sync.
  assert (Hreach : reach (bump "kvstore.thrift.num_full_sync.count" (set_store s1 w))
                         area peerName entry = None).
  { unfold reach; simpl. change (node_name s1) with (node_name s). rewrite Hname.
    destruct (decide (self = peerName)) as [<-|Hne].
    - rewrite lookup_insert_eq. unfold same_port.
      rewrite (bool_decide_eq_false_2 (thrift_port s1 = ctrlPort spec));
        [by rewrite andb_false_r |]. exact (Hport _ Hs).
    - rewrite lookup_insert_ne by done.
      destruct (stores w !! peerName) as [p|] eqn:Hp; [| done]. unfold same_port.
      rewrite (bool_decide_eq_false_2 (thrift_port p = ctrlPort spec));
        [by rewrite andb_false_r |]. exact (Hport _ eq_refl). }
  rewrite Hreach. unfold sync_failed. split.
  - rewrite <- Hv1.
    change (world_view (set_store s1 w))
      with (world_view (bump "kvstore.thrift.num_full_sync_failure.count"
                          (bump "kvstore.thrift.num_full_sync.count" (set_store s1 w)))).
    apply (set_store_same_view s1); [| apply update_peers_view].
    simpl. change (node_name s1) with (node_name s). by rewrite lookup_insert_eq.
  - by do 2 apply well_named_set_store.
Qed.

(** addPeer on a store that runs and configures the area returns true,
    and leaves the world [add_peer] makes. *)
Lemma addPeer_on_usable_store (self : string) (w : World) (area : AreaId)
    (peerName : string) (spec : PeerSpec) :
  is_Some (usable w self area) →
  addPeer (kvStoreApi := api self) w area peerName spec
  = mkResult true (add_peer self area w peerName spec) [].
Proof.
  intros [s Hus]. unfold addPeer, addPeers; simpl. unfold addUpdateKvStorePeers.
  rewrite Hus. simpl. by rewrite map_to_list_singleton.
Qed.


Lemma usable_inv (w : World) (self : string) (area : AreaId) (s : Store) :
  usable w self area = Some s →
  stores w !! self = Some s ∧ running s = true ∧ is_Some (areas s !! area).
Proof.
  unfold usable. destruct (stores w !! self) as [s0|]; [| discriminate].
  destruct (running s0) eqn:Hr; simpl; [| discriminate].
  destruct (bool_decide (is_Some (areas s0 !! area))) eqn:Ha; [| discriminate].
  intros [= <-]. by apply bool_decide_eq_true_1 in Ha.
Qed.

Lemma usable_intro (w : World) (self : string) (area : AreaId) (s : Store) :
  stores w !! self = Some s → running s = true → is_Some (areas s !! area) →
  usable w self area = Some s.
Proof.
  intros Hs Hr Ha. unfold usable. rewrite Hs, Hr. simpl.
  by rewrite bool_decide_eq_true_2.
Qed.

Lemma getKey_by_store (w w' : World) (self : string) (area : AreaId) (key : string) :
  stores w !! self = stores w' !! self →
  returned (getKey (kvStoreApi := api self) w area key)
  = returned (getKey (kvStoreApi := api self) w' area key).
Proof.
  intros Hs. unfold getKey. cbn [semifuture_getKvStoreKeyVals api].
  unfold getKvStoreKeyVals, usable. rewrite Hs.
  by destruct (stores w' !! self) as [s|]; [destruct (running s && _) |].
Qed.

Lemma commit_keeps (area : AreaId) (delta : KeyVals) (path : option (list string))
    (sender : option string) (s s' : Store) (acc : KeyVals) :
  commit area delta path sender s = Some (s', acc) →
  running s' = running s ∧ node_name s' = node_name s
  ∧ thrift_port s' = thrift_port s ∧ thrift_addr s' = thrift_addr s
  ∧ ∀ a, a ≠ area → areas s' !! a = areas s !! a.
Proof.
  unfold commit. destruct (areas s !! area) as [db|]; [| discriminate].
  destruct (AreaDb.mergeKeyValues (db_keyVals db) delta) as [kvs' accepted].
  destruct (decide (accepted = ∅)); intros Hc; injection Hc as <- <-; simpl;
    repeat split; try done.
  intros a Hne. by rewrite lookup_insert_ne.
Qed.

Lemma flood_targets_none (peers : PeersMap) (path : list string)
    (sender : option string) :
  map_Forall (fun _ spec => peer_state spec ≠ INITIALIZED) peers →
  flood_targets peers path sender = [].
Proof.
  intros Hpeers. unfold flood_targets.
  apply map_Forall_to_list in Hpeers.
  induction Hpeers as [|[name spec] l Hspec _ IH]; [reflexivity |].
  rewrite filter_cons_False; [exact IH |].
  simpl in *. rewrite bool_decide_eq_false_2 by exact Hspec. simpl. discriminate.
Qed.

(** A commit without a flood target leaves the outbox as it was. *)
Lemma commit_no_flood (area : AreaId) (delta : KeyVals) (path : option (list string))
    (sender : option string) (s s' : Store) (acc : KeyVals) (db : KvStoreDb) :
  areas s !! area = Some db →
  map_Forall (fun _ spec => peer_state spec ≠ INITIALIZED) (db_peers db) →
  commit area delta path sender s = Some (s', acc) →
  outbox s' = outbox s.
Proof.
  intros Hdb Hpeers. unfold commit. rewrite Hdb.
  destruct (AreaDb.mergeKeyValues (db_keyVals db) delta) as [kvs' accepted].
  destruct (decide (accepted = ∅)); intros Hc; injection Hc as <- <-; [reflexivity |].
  simpl. by rewrite flood_targets_none, app_nil_r.
Qed.

(** X14: a key written with setKey is read back with getKey.  On a store
    that runs and configures the area, getKey after setKey gives the
    written record when the store held none for the key or the written
    one dominates, and the record the store held otherwise; the other
    keys of the store read as before.  When the store has no peer in
    state INITIALIZED in the area, the write owes no flood: the outbox of
    the store is as it was and every key of every other store reads as
    before. *)
Theorem setKey_then_getKey (self : string) (w : World) (area : AreaId) (key : string)
    (v : Value) (nodeIds : option (list string))
    (Hnamed : well_named w) (Husable : is_Some (usable w self area)) :
  let w' := store_after (setKey (kvStoreApi := api self) w area key v nodeIds) in
  returned (getKey (kvStoreApi := api self) w' area key)
  = dominant (returned (getKey (kvStoreApi := api self) w area key)) (Some v)
  ∧ (∀ k, k ≠ key →
       returned (getKey (kvStoreApi := api self) w' area k)
       = returned (getKey (kvStoreApi := api self) w area k))
  ∧ (no_flood_target w self area →
     outbox (store_of self w') = outbox (store_of self w)
     ∧ ∀ other a k, other ≠ self →
         returned (getKey (kvStoreApi := api other) w' a k)
         = returned (getKey (kvStoreApi := api other) w a k)).
Proof.
  destruct Husable as [s Hus]. intros w'.
  destruct (usable_inv _ _ _ _ Hus) as (Hs & Hrun & [db Hdb]).
  pose proof (Hnamed _ _ Hs) as Hname.
  assert (Hw' : ∃ s' acc,
             commit area {[ key := v ]} nodeIds None s = Some (s', acc)
             ∧ w' = set_store s' w).
  { unfold w', setKey; simpl. unfold setKvStoreKeyVals. rewrite Hus. simpl.
    rewrite emplace_empty.
    destruct (commit area {[ key := v ]} nodeIds None s) as [[s' acc]|] eqn:Hc.
    - by exists s', acc.
    - unfold commit in Hc. rewrite Hdb in Hc.
      destruct (AreaDb.mergeKeyValues _ _); by destruct (decide _). }
  destruct Hw' as (s' & acc & Hc & ->).
  destruct (commit_keeps _ _ _ _ _ _ _ Hc) as (Hr' & Hn' & _).
  destruct (commit_records _ _ _ _ _ _ _ _ Hdb Hc) as [_ Hrec].
  assert (Hs' : stores (set_store s' w) !! self = Some s').
  { unfold set_store; simpl. by rewrite Hn', Hname, lookup_insert_eq. }
  assert (Hus' : usable (set_store s' w) self area = Some s').
  { apply usable_intro; [exact Hs' | congruence |].
    destruct (areas s' !! area); [eauto | discriminate Hrec]. }
  assert (Hread : ∀ k,
             returned (getKey (kvStoreApi := api self) (set_store s' w) area k)
             = AreaDb.merged_entry (returned (getKey (kvStoreApi := api self) w area k))
                                   (({[ key := v ]} : KeyVals) !! k)).
  { intros k. rewrite (getKey_stored_record _ _ _ _ _ Hus'),
      (getKey_stored_record _ _ _ _ _ Hus).
    unfold records. rewrite Hs', Hs. simpl. rewrite Hrec, Hdb. simpl.
    apply lookup_mergeKeyValues. }
  split; [| split].
  - rewrite Hread, lookup_singleton_eq. unfold AreaDb.merged_entry, AreaDb.accepts, dominant.
    by destruct (returned (getKey w area key)) as [old|].
  - intros k Hne. rewrite Hread, lookup_singleton_ne by done. reflexivity.
  - intros Hpeers. split.
    + unfold store_of. rewrite Hs', Hs. simpl.
      unfold no_flood_target, store_of, db_of in Hpeers.
      rewrite Hs in Hpeers. simpl in Hpeers. rewrite Hdb in Hpeers.
      exact (commit_no_flood _ _ _ _ _ _ _ _ Hdb Hpeers Hc).
    + intros other a k Hne. symmetry. apply getKey_by_store.
      unfold set_store; simpl. rewrite lookup_insert_ne; [reflexivity | congruence].
Qed.

End OnAnyWorld.

(** ** The test of the sync that fails *)

Section FailedSync.
Import KvStore KvStoreReads ThriftTest SimpleThriftTest.

Lemma store_after_mkResult {S A : Type} (a : A) (s : S) (lines : list LogLine) :
  store_after (mkResult a s lines) = s.
Proof. reflexivity. Qed.

Lemma returned_mkResult {S A : Type} (a : A) (s : S) (lines : list LogLine) :
  returned (mkResult a s lines) = a.
Proof. reflexivity. Qed.

Lemma expects_mkRun (w : World) (l : list bool) : expects (mkRun w l) = l.
Proof. reflexivity. Qed.

Lemma world_mkRun (w : World) (l : list bool) : world (mkRun w l) = w.
Proof. reflexivity. Qed.

Lemma well_named_empty : well_named empty_world.
Proof. intros name s Hs. simpl in Hs. by rewrite lookup_empty in Hs. Qed.

Lemma well_named_create (nodeId : string) (areaIds : list string) (addr : string)
    (port : Z) (w : World) :
  well_named w → well_named (create nodeId areaIds addr port w).
Proof.
  intros Hw name s. unfold create; simpl.
  destruct (decide (nodeId = name)) as [<-|Hne].
  - rewrite lookup_insert_eq. by intros [= <-].
  - rewrite lookup_insert_ne by done. apply Hw.
Qed.

Lemma well_named_setKey (self : string) (w : World) (area : AreaId) (key : string)
    (v : Value) (nodeIds : option (list string)) :
  well_named w →
  well_named (store_after (setKey (kvStoreApi := api self) w area key v nodeIds)).
Proof.
  intros Hw. unfold setKey. cbn [semifuture_setKvStoreKeyVals api].
  unfold setKvStoreKeyVals. destruct (usable w self area) as [s|]; [| exact Hw].
  destruct (commit _ _ _ _ s) as [[s' acc]|]; [| exact Hw].
  by apply well_named_set_store.
Qed.

Lemma well_named_topo (port1 port2 : Z) :
  well_named (world (createSimpleThriftTestTopo port1 port2)).
Proof.
  unfold createSimpleThriftTestTopo. cbn [world].
  do 2 apply well_named_setKey. do 2 apply well_named_create. apply well_named_empty.
Qed.

(** A verification whose store never gives the value comes to false once
    a reading of the clock is past the timeout. *)
Lemma verifyKvStoreKeyVal_absent {S : Type} {kvStoreApi : KvStoreApi S}
    (polls : list (Poll S)) (nodeId key : string) (thriftVal : Value) (area : AreaId)
    (timeout : Z) :
  Forall (fun poll => returned (getKey poll.2 area key) ≠ Some thriftVal) polls →
  Exists (fun poll => timeout < poll.1) polls →
  (verifyKvStoreKeyVal polls nodeId key thriftVal area (Some timeout)).1 = VerifiedFalse.
Proof.
  intros Habsent Hlate. simpl.
  induction polls as [|[elapsed kvStore] polls IH]; [by inversion Hlate |].
  simpl. apply Forall_cons in Habsent as [Hno Habsent]. simpl in Hno.
  destruct (Z.ltb_spec timeout elapsed) as [|Hin]; [reflexivity |].
  rewrite bool_decide_eq_false_2 by done.
  apply Exists_cons in Hlate as [Hl|Hlate]; [simpl in Hl; lia |].
  specialize (IH Habsent Hlate).
  by destruct (verifyKvStoreKeyVal_loop polls nodeId key thriftVal area timeout).
Qed.

(** The port a search returns is none of the ports given. *)
Lemma generateRandomDiffPort_not_used (draws : list Z) (ports : gset Z) (port : Z) :
  generateRandomDiffPort draws ports = Some port → port ∉ ports.
Proof.
  induction draws as [|r draws IH]; simpl; [discriminate |].
  destruct (bool_decide _) eqn:Hin; [exact IH |].
  intros [= <-]. by apply bool_decide_eq_false_1 in Hin.
Qed.

(** X15: the test FullSyncWithException passes on the modelled store, for
    any ports of the two servers, any random numbers and any readings of
    the clock, as long as both searches for a dummy port end and both
    verifications see the clock pass the wait time.  Both calls of
    addPeer return true although no peer is reached, both verifications
    come to false, either store still dumps its one key, and either peer
    is back in IDLE. *)
Theorem FullSyncWithException_passes (port1 port2 : Z) (draws1 draws2 : list Z)
    (clocks1 clocks2 : list Z) (r : Run)
    (Hrun : FullSyncWithException port1 port2 draws1 draws2 clocks1 clocks2 = Some r)
    (Hlate1 : Exists (fun e => waitTime_ < e) clocks1)
    (Hlate2 : Exists (fun e => waitTime_ < e) clocks2) :
  forallb id (expects r) = true
  ∧ records node1 kTestingAreaName (world r) = {[ key1 := thriftVal1 ]}
  ∧ records node2 kTestingAreaName (world r) = {[ key2 := thriftVal2 ]}.
Proof.
  unfold FullSyncWithException in Hrun.
  set (r0 := createSimpleThriftTestTopo port1 port2) in *.
  set (w0 := world r0) in *.
  assert (Hport1 : thrift_port (store_of node1 w0) = port1) by (vm_compute; reflexivity).
  assert (Hport2 : thrift_port (store_of node2 w0) = port2) by (vm_compute; reflexivity).
  assert (Hname1 : node_name (store_of node1 w0) = node1) by (vm_compute; reflexivity).
  assert (Hname2 : node_name (store_of node2 w0) = node2) by (vm_compute; reflexivity).
  assert (Hs1 : stores w0 !! node1 = Some (store_of node1 w0))
    by (vm_compute; reflexivity).
  assert (Hs2 : stores w0 !! node2 = Some (store_of node2 w0))
    by (vm_compute; reflexivity).
  assert (Hus1 : is_Some (usable w0 node1 kTestingAreaName))
    by (vm_compute; eexists; reflexivity).
  assert (Hus2 : is_Some (usable w0 node2 kTestingAreaName))
    by (vm_compute; eexists; reflexivity).
  assert (Htopo : forallb id (expects r0) = true) by (vm_compute; reflexivity).
  assert (Hno2 : returned (getKey (kvStoreApi := api node1) w0 kTestingAreaName key2)
                 ≠ Some thriftVal2) by (vm_compute; discriminate).
  assert (Hno1 : returned (getKey (kvStoreApi := api node2) w0 kTestingAreaName key1)
                 ≠ Some thriftVal1) by (vm_compute; discriminate).
  assert (Hdump1 : dump_count node1 w0 = Some 1%nat) by (vm_compute; reflexivity).
  assert (Hdump2 : dump_count node2 w0 = Some 1%nat) by (vm_compute; reflexivity).
  assert (Hrec1 : records node1 kTestingAreaName w0 = {[ key1 := thriftVal1 ]})
    by (vm_compute; reflexivity).
  assert (Hrec2 : records node2 kTestingAreaName w0 = {[ key2 := thriftVal2 ]})
    by (vm_compute; reflexivity).
  assert (Hnamed : well_named w0) by apply well_named_topo.
  clearbody w0. clearbody r0.
  rewrite Hport1, Hport2, Hname1, Hname2 in Hrun.
  destruct (generateRandomDiffPort draws1 {[port1; port2]}) as [dummyPort1|] eqn:Hd1;
    [| discriminate].
  destruct (generateRandomDiffPort draws2 {[port1; port2]}) as [dummyPort2|] eqn:Hd2;
    [| discriminate].
  apply generateRandomDiffPort_not_used in Hd1, Hd2.
  set (spec1 := {| peerAddr := _; ctrlPort := dummyPort1 |}) in *.
  set (spec2 := {| peerAddr := _; ctrlPort := dummyPort2 |}) in *.
  rewrite (addPeer_on_usable_store node1 w0 _ node2 spec2 Hus1) in Hrun.
  rewrite ?store_after_mkResult, ?returned_mkResult in Hrun.
  set (w1 := add_peer node1 kTestingAreaName w0 node2 spec2) in *.
  destruct (add_peer_wrong_port node1 kTestingAreaName w0 node2 spec2) as [Hv1 Hn1].
  { exact Hnamed. }
  { intros p Hp. rewrite Hs2 in Hp. apply (inj Some) in Hp. subst p. rewrite Hport2.
    change (port2 ≠ dummyPort2). intros <-. apply Hd2.
    apply elem_of_union_r. by apply elem_of_singleton_2. }
  fold w1 in Hv1, Hn1. clearbody w1.
  assert (Hus2' : is_Some (usable w1 node2 kTestingAreaName)).
  { pose proof (usable_by_view w1 w0 node2 kTestingAreaName Hv1) as Hu.
    destruct Hus2 as [s Hu0]. rewrite Hu0 in Hu.
    destruct (usable w1 node2 kTestingAreaName); [eauto | done]. }
  rewrite (addPeer_on_usable_store node2 w1 _ node1 spec1 Hus2') in Hrun.
  rewrite ?store_after_mkResult, ?returned_mkResult in Hrun.
  set (w2 := add_peer node2 kTestingAreaName w1 node1 spec1) in *.
  destruct (add_peer_wrong_port node2 kTestingAreaName w1 node1 spec1) as [Hv2 _].
  { exact Hn1. }
  { intros p Hp. pose proof (lookup_world_view w1 w0 node1 Hv1) as Hl.
    rewrite Hp, Hs1 in Hl.
    assert (Hpp : thrift_port p = thrift_port (store_of node1 w0)).
    { unfold store_view in Hl. congruence. }
    rewrite Hpp, Hport1. change (port1 ≠ dummyPort1). intros <-. apply Hd1.
    apply elem_of_union_l. by apply elem_of_singleton_2. }
  fold w2 in Hv2. clearbody w2.
  assert (Hview : world_view w2 = world_view w0) by congruence.
  apply (inj Some) in Hrun. rewrite <- Hrun. clear Hrun r.
  rewrite ?expects_mkRun, ?world_mkRun.
  assert (Hget : ∀ self key,
             returned (getKey (kvStoreApi := api self) w2 kTestingAreaName key)
             = returned (getKey (kvStoreApi := api self) w0 kTestingAreaName key)).
  { intros self key. by apply getKey_by_view. }
  assert (Hrec : ∀ self, is_Some (usable w0 self kTestingAreaName) →
             records self kTestingAreaName w2 = records self kTestingAreaName w0).
  { intros self [s0 Hu0]. apply map_eq. intros k.
    pose proof (usable_by_view w2 w0 self kTestingAreaName Hview) as Hu.
    rewrite Hu0 in Hu.
    destruct (usable w2 self kTestingAreaName) as [s|] eqn:Hu2; [| done].
    by rewrite <- (getKey_stored_record _ _ _ _ _ Hu2), Hget,
      (getKey_stored_record _ _ _ _ _ Hu0). }
  split; [| split].
  - rewrite forallb_app, Htopo. cbn [forallb id andb].
    rewrite (bool_decide_eq_true_2 (_ = VerifiedFalse)).
    2:{ apply verifyKvStoreKeyVal_absent.
        - apply Forall_forall. intros poll Hin.
          apply list_elem_of_fmap in Hin as (e & -> & _). cbn [snd]. by rewrite Hget.
        - apply Exists_exists in Hlate1 as (e & Hin & He). apply Exists_exists.
          exists (e, w2). split; [| exact He]. apply list_elem_of_fmap. by exists e. }
    rewrite (bool_decide_eq_true_2 (_ = VerifiedFalse)).
    2:{ apply verifyKvStoreKeyVal_absent.
        - apply Forall_forall. intros poll Hin.
          apply list_elem_of_fmap in Hin as (e & -> & _). cbn [snd]. by rewrite Hget.
        - apply Exists_exists in Hlate2 as (e & Hin & He). apply Exists_exists.
          exists (e, w2). split; [| exact He]. apply list_elem_of_fmap. by exists e. }
    unfold dump_count in *.
    rewrite !(dumpAll_by_view w2 w0 _ _ _ Hview), Hdump1, Hdump2. reflexivity.
  - by rewrite (Hrec node1 Hus1).
  - by rewrite (Hrec node2 Hus2).
Qed.

End FailedSync.

(** ** Peers and witnesses on the modelled store *)

Section PeersOnTheStore.
Import KvStore KvStoreReads ThriftTest SimpleThriftTest.

(** X16: delPeer makes a peer unknown.  On a store that runs and
    configures the area delPeer returns true; afterwards getPeerState
    gives none for the peer and getPeers no longer lists it, whether or
    not it was a peer before, while the other peers and all records are
    as they were. *)
Theorem delPeer_removes (self : string) (w : World) (area : AreaId) (peerName : string)
    (Hnamed : well_named w) (Husable : is_Some (usable w self area)) :
  let r := delPeer (kvStoreApi := api self) w area peerName in
  returned r = true
  ∧ getPeerState (kvStoreApi := api self) (store_after r) area peerName = None
  ∧ (∀ other, other ≠ peerName →
       getPeerState (kvStoreApi := api self) (store_after r) area other
       = getPeerState (kvStoreApi := api self) w area other)
  ∧ (∀ peers, getPeers (kvStoreReadApi := read_api self) w area = TryValue peers →
       getPeers (kvStoreReadApi := read_api self) (store_after r) area
       = TryValue (delete peerName peers))
  ∧ world_view (store_after r) = world_view w.
Proof.
  destruct Husable as [s Hus]. intros r.
  destruct (usable_inv _ _ _ _ Hus) as (Hs & Hrun & [db Hdb]).
  pose proof (Hnamed _ _ Hs) as Hname.
  set (s' := update_peers area (fun ps => fold_right delete ps [peerName]) s).
  assert (Hr : r = mkResult true (set_store s' w) []).
  { unfold r, delPeer. cbn [semifuture_deleteKvStorePeers api].
    unfold deleteKvStorePeers. by rewrite Hus. }
  assert (Hname' : node_name s' = self) by exact Hname.
  assert (Hrun' : running s' = true) by exact Hrun.
  assert (Hdb' : areas s' !! area
                 = Some (mkKvStoreDb (db_keyVals db) (delete peerName (db_peers db)))).
  { unfold s', update_peers; simpl. by rewrite lookup_alter_eq, Hdb. }
  assert (Hview : store_view s' = store_view s) by apply update_peers_view.
  rewrite Hr. clear Hr r. clearbody s'.
  rewrite ?store_after_mkResult, ?returned_mkResult.
  assert (Hs' : stores (set_store s' w) !! self = Some s').
  { unfold set_store. cbn [stores]. by rewrite Hname', lookup_insert_eq. }
  split; [reflexivity |]. split; [| split; [| split]].
  - unfold getPeerState. cbn [semifuture_getKvStorePeerState api].
    unfold getKvStorePeerState. rewrite Hs', Hdb'. cbn [mbind option_bind db_peers].
    by rewrite lookup_delete_eq.
  - intros other Hne. unfold getPeerState. cbn [semifuture_getKvStorePeerState api].
    unfold getKvStorePeerState. rewrite Hs', Hs, Hdb', Hdb.
    cbn [mbind option_bind db_peers]. by rewrite lookup_delete_ne.
  - intros peers. unfold getPeers. cbn [semifuture_getKvStorePeers read_api].
    unfold getKvStorePeers. rewrite Hus.
    rewrite (usable_intro (set_store s' w) self area s' Hs');
      [| exact Hrun' | by rewrite Hdb'].
    rewrite Hdb', Hdb. cbn [fmap option_fmap option_map default db_peers].
    by intros [= <-].
  - apply (set_store_same_view s); [by rewrite Hname | exact Hview].
Qed.

Lemma well_named_decide (w : World) :
  bool_decide (map_Forall (fun name s => node_name s = name) (stores w)) = true →
  well_named w.
Proof. intros H. exact (bool_decide_eq_true_1 _ H). Qed.

Lemma delPeer_removes_witness :
  let w0 := world (createSimpleThriftTestTopo 1001 1002) in
  let w := store_after (addPeer (kvStoreApi := api node1) w0 kTestingAreaName node2
                                (getPeerSpec (store_of node2 w0))) in
  let r := delPeer (kvStoreApi := api node1) w kTestingAreaName node2 in
  getPeerState (kvStoreApi := api node1) w kTestingAreaName node2 = Some INITIALIZED
  ∧ returned r = true
  ∧ getPeerState (kvStoreApi := api node1) (store_after r) kTestingAreaName node2 = None
  ∧ ∃ peers,
      getPeers (kvStoreReadApi := read_api node1) w kTestingAreaName = TryValue peers
      ∧ is_Some (peers !! node2)
      ∧ getPeers (kvStoreReadApi := read_api node1) (store_after r) kTestingAreaName
        = TryValue (delete node2 peers).
Proof.
  intros w0 w r.
  assert (Hstate : getPeerState (kvStoreApi := api node1) w kTestingAreaName node2
                   = Some INITIALIZED) by (vm_compute; reflexivity).
  assert (Hus : is_Some (usable w node1 kTestingAreaName))
    by (vm_compute; eexists; reflexivity).
  assert (Hnamed : well_named w)
    by (apply well_named_decide; vm_compute; reflexivity).
  assert (Hpeers : ∃ peers,
             getPeers (kvStoreReadApi := read_api node1) w kTestingAreaName
             = TryValue peers ∧ is_Some (peers !! node2))
    by (vm_compute; eexists; split; [reflexivity | eexists; reflexivity]).
  destruct Hpeers as (peers & Hget & Hin).
  destruct (delPeer_removes node1 w kTestingAreaName node2 Hnamed Hus)
    as (H1 & H2 & _ & H4 & _).
  split; [exact Hstate |]. split; [exact H1 |]. split; [exact H2 |].
  exists peers. split; [exact Hget |]. split; [exact Hin |]. exact (H4 peers Hget).
Defined.

Lemma setKey_then_getKey_witness :
  let w := world (createSimpleThriftTestTopo 1001 1002) in
  let newer := createThriftValue 2 node1 "value1" in
  let w' := store_after (setKey (kvStoreApi := api node1) w kTestingAreaName
                                key1 newer None) in
  returned (getKey (kvStoreApi := api node1) w kTestingAreaName key1) = Some thriftVal1
  ∧ returned (getKey (kvStoreApi := api node1) w' kTestingAreaName key1) = Some newer
  ∧ no_flood_target w node1 kTestingAreaName
  ∧ returned (getKey (kvStoreApi := api node2) w' kTestingAreaName key2)
    = Some thriftVal2.
Proof.
  intros w newer w'.
  assert (Hold : returned (getKey (kvStoreApi := api node1) w kTestingAreaName key1)
                 = Some thriftVal1) by (vm_compute; reflexivity).
  assert (Hother : returned (getKey (kvStoreApi := api node2) w kTestingAreaName key2)
                   = Some thriftVal2) by (vm_compute; reflexivity).
  assert (Hus : is_Some (usable w node1 kTestingAreaName))
    by (vm_compute; eexists; reflexivity).
  assert (Hpeers : no_flood_target w node1 kTestingAreaName).
  { apply (bool_decide_eq_true_1 _). vm_compute. reflexivity. }
  destruct (setKey_then_getKey node1 w kTestingAreaName key1 newer None
              (well_named_topo 1001 1002) Hus) as (H1 & _ & H3).
  destruct (H3 Hpeers) as [_ Hothers].
  split; [exact Hold |]. split; [| split; [exact Hpeers |]].
  - fold w' in H1. rewrite H1, Hold. vm_compute. reflexivity.
  - fold w' in Hothers. rewrite (Hothers node2 kTestingAreaName key2), Hother;
      [reflexivity | vm_compute; discriminate].
Defined.

Lemma FullSyncWithException_passes_witness :
  ∃ r, FullSyncWithException 1001 1002 [1000; 7] [1001; 8] [0; 1001] [0; 500; 1500]
       = Some r
       ∧ forallb id (expects r) = true.
Proof.
  assert (Hr : ∃ r, FullSyncWithException 1001 1002 [1000; 7] [1001; 8] [0; 1001]
                      [0; 500; 1500] = Some r)
    by (vm_compute; eexists; reflexivity).
  destruct Hr as [r Hr]. exists r. split; [exact Hr |].
  refine (proj1 (FullSyncWithException_passes _ _ _ _ _ _ r Hr _ _)).
  - apply Exists_cons. right. apply Exists_cons. left. unfold waitTime_. lia.
  - apply Exists_cons. right. apply Exists_cons. right. apply Exists_cons. left.
    unfold waitTime_. lia.
Defined.

Lemma run_stop_run_witness :
  let kvStore_ := stop_store node1 (createKvStore node1 1001 empty_world) in
  ∃ started,
    run (kvStoreReadApi := read_api node1) (constructed kvStore_) = Some started
    ∧ run (kvStoreReadApi := read_api node1) started = None.
Proof.
  intros kvStore_.
  destruct (run_stop_run (kvStoreApi := api node1) (kvStoreReadApi := read_api node1)
              kvStore_ eq_refl eq_refl eq_refl)
    as (started & again & H1 & _ & H2 & _).
  by exists started.
Defined.

End PeersOnTheStore.
